(** * Clean Gallery (src/App.tsx): the data flow of the gallery component

    The component keeps a list of image records in React state, hydrates
    it once from [localStorage], saves it after every change, ingests
    batches of files through an [async] handler, deletes by id and
    derives a filtered view from a search term.

    JavaScript strings are sequences of UTF-16 code units; they are
    modelled as [list N].  Rocq string literals are only used to write
    ASCII constants, through [js]. *)

From Stdlib Require Import NArith ZArith Lia Ascii String DecimalN.
From stdpp Require Import base option list gmap strings.

Local Open Scope N_scope.
Set Warnings "-register-all".

(** ** JavaScript strings *)

Abbreviation jsstring := (list N).

Definition js (s : string) : jsstring :=
  map N_of_ascii (list_ascii_of_string s).

(** A string value only holds 16-bit code units. *)
Definition wf_string (s : jsstring) : Prop := Forall (λ c, c < 65536) s.

(** [String.prototype.startsWith(search)] *)
Fixpoint startsWith (s search : jsstring) {struct search} : bool :=
  match search, s with
  | [], _ => true
  | _ :: _, [] => false
  | c :: search', d :: s' => (d =? c) && startsWith s' search'
  end.

(** [String.prototype.includes(search)]: some position of [s] starts an
    occurrence of [search]. *)
Fixpoint includes (s search : jsstring) : bool :=
  startsWith s search ||
  match s with
  | [] => false
  | _ :: s' => includes s' search
  end.

(** The character class [[^/.]] of the regular expression below. *)
Definition not_slash_dot (c : N) : bool := negb (c =? 47) && negb (c =? 46).

(** Does [/\.[^/.]+$/] match with the match starting at the head of [s]?
    A dot, then one or more class characters, then the end of input. *)
Definition ext_match_here (s : jsstring) : bool :=
  match s with
  | c :: rest => (c =? 46) && negb (bool_decide (rest = [])) && forallb not_slash_dot rest
  | [] => false
  end.

(** [s.replace(/\.[^/.]+$/, '')]: the leftmost match is replaced by the
    empty string; since the pattern is anchored at the end, what remains
    is the text before the match. *)
Fixpoint replace_ext (s : jsstring) : jsstring :=
  if ext_match_here s then []
  else match s with
       | [] => []
       | c :: rest => c :: replace_ext rest
       end.

(** ** Records *)

Module ImageData.
Record t : Type := mk {
  id : jsstring;
  name : jsstring;
  src : jsstring;
  size : N;
  uploadDate : jsstring
}.
End ImageData.

#[global] Instance ImageData_eq_dec : EqDecision ImageData.t.
Proof. solve_decision. Defined.

(** A browser [File], as far as the component reads it. *)
Module File.
Record t : Type := mk {
  name : jsstring;
  type : jsstring;
  size : N
}.
End File.

(** ** Deletion

    [setImages(prev => prev.filter(img => img.id !== imageId))] *)
Definition deleteImage_update (imageId : jsstring) (prev : list ImageData.t)
  : list ImageData.t :=
  filter (λ img, ImageData.id img ≠ imageId) prev.

(** ** View filter

    [String.prototype.toLowerCase] is the engine's Unicode lower-casing;
    the component only composes it with [includes], so it is a parameter
    of the view filter. *)
Section ViewFilter.
Variable toLowerCase : jsstring → jsstring.

Definition matches (searchTerm : jsstring) (image : ImageData.t) : bool :=
  includes (toLowerCase (ImageData.name image)) (toLowerCase searchTerm).

(** [images.filter(image =>
      image.name.toLowerCase().includes(searchTerm.toLowerCase()))] *)
Definition filteredImages (images : list ImageData.t) (searchTerm : jsstring)
  : list ImageData.t :=
  filter (λ image, matches searchTerm image = true) images.

(** The spec's words, "name contains query as a case-insensitive
    substring": once both are lower-cased, the query occurs in the
    name. *)
Definition contains_ignoring_case (name query : jsstring) : Prop :=
  ∃ before after, toLowerCase name = before ++ toLowerCase query ++ after.
End ViewFilter.

(** Lower-casing restricted to Basic Latin: [A-Z] to [a-z], every other
    code unit kept. *)
Definition ascii_lower (c : N) : N :=
  if (65 <=? c) && (c <=? 90) then c + 32 else c.

Definition ascii_toLowerCase (s : jsstring) : jsstring := map ascii_lower s.

(** ** Ingestion: [handleFileUpload]

    The handler is an [async] function: it runs until the next [await]
    and is resumed when the awaited read settles.  A state setter of
    React is an effect the handler emits; the effects of one step are
    applied to the component state when the step yields. *)

Inductive images_update : Type :=
| Append (newImages : list ImageData.t)   (* prev => [...prev, ...newImages] *)
| Remove (imageId : jsstring).            (* prev => prev.filter(img => img.id !== imageId) *)

Inductive effect : Type :=
| SetUploading (b : bool)
| SetImages (u : images_update)
| SetShowDeleteConfirm (v : option jsstring)
| ConsoleError (label error : jsstring)
| ResetFileInput.   (* if (fileInputRef.current) fileInputRef.current.value = '' *)

Record AppState : Type := mkState {
  images : list ImageData.t;
  uploading : bool;
  showDeleteConfirm : option jsstring;
  fileInput : option jsstring;           (* the value of fileInputRef.current, if mounted *)
  console : list (jsstring * jsstring)   (* console.error calls, oldest first *)
}.

Definition update_images (u : images_update) (prev : list ImageData.t)
  : list ImageData.t :=
  match u with
  | Append newImages => prev ++ newImages
  | Remove imageId => deleteImage_update imageId prev
  end.

Definition apply_effect (st : AppState) (e : effect) : AppState :=
  match e with
  | SetUploading b =>
      mkState (images st) b (showDeleteConfirm st) (fileInput st) (console st)
  | SetImages u =>
      mkState (update_images u (images st)) (uploading st) (showDeleteConfirm st)
              (fileInput st) (console st)
  | SetShowDeleteConfirm v =>
      mkState (images st) (uploading st) v (fileInput st) (console st)
  | ConsoleError label error =>
      mkState (images st) (uploading st) (showDeleteConfirm st) (fileInput st)
              (console st ++ [(label, error)])
  | ResetFileInput =>
      mkState (images st) (uploading st) (showDeleteConfirm st)
              ((λ _, []) <$> fileInput st) (console st)
  end.

Definition apply_effects (st : AppState) (es : list effect) : AppState :=
  foldl apply_effect st es.

(** [deleteImage] *)
Definition deleteImage (imageId : jsstring) : list effect :=
  [SetImages (Remove imageId); SetShowDeleteConfirm None].

(** What a settled [fileToBase64(file)] delivers. *)
Inductive read_result : Type :=
| Loaded (base64 : jsstring)   (* reader.onload: resolve(reader.result) *)
| Failed (error : jsstring).   (* reader.onerror: reject(error) *)

(** The ambient values read while a record is built. *)
Record Ambient : Type := mkAmbient {
  Date_now : Z;                        (* Date.now(): milliseconds since 1970,
                                          negative on a clock set before it *)
  Math_random_toString36 : jsstring;   (* Math.random().toString(36) *)
  Date_toISOString : jsstring          (* new Date().toISOString() *)
}.

Fixpoint digits_of_uint (u : Decimal.uint) : jsstring :=
  match u with
  | Decimal.Nil => []
  | Decimal.D0 u => 48 :: digits_of_uint u
  | Decimal.D1 u => 49 :: digits_of_uint u
  | Decimal.D2 u => 50 :: digits_of_uint u
  | Decimal.D3 u => 51 :: digits_of_uint u
  | Decimal.D4 u => 52 :: digits_of_uint u
  | Decimal.D5 u => 53 :: digits_of_uint u
  | Decimal.D6 u => 54 :: digits_of_uint u
  | Decimal.D7 u => 55 :: digits_of_uint u
  | Decimal.D8 u => 56 :: digits_of_uint u
  | Decimal.D9 u => 57 :: digits_of_uint u
  end.

(** [Number::toString] of a non-negative integer below 10^21: its decimal
    digits. *)
Definition Number_toString (n : N) : jsstring := digits_of_uint (N.to_uint n).

(** [Number::toString] of an integer of magnitude below 10^21: a minus
    sign when it is negative, then the digits of its magnitude. *)
Definition Integer_toString (z : Z) : jsstring :=
  if (z <? 0)%Z then 45 :: Number_toString (Z.to_N (- z))
  else Number_toString (Z.to_N z).

(** [String.prototype.substr(start, length)] *)
Definition substr (s : jsstring) (start len : nat) : jsstring :=
  take len (drop start s).

Definition image_slash : jsstring := Eval vm_compute in js "image/".
Definition upload_error_label : jsstring := Eval vm_compute in js "Upload error:".

Definition imageData (file : File.t) (base64 : jsstring) (env : Ambient)
  : ImageData.t :=
  ImageData.mk
    (Integer_toString (Date_now env) ++ substr (Math_random_toString36 env) 2 9)
    (replace_ext (File.name file))
    base64
    (File.size file)
    (Date_toISOString env).

(** Where the handler stands between two steps. *)
Inductive upload_task : Type :=
| Reading (file : File.t) (rest : list File.t) (newImages : list ImageData.t)
    (* suspended at [await fileToBase64(file)] *)
| Settled.

(** The [finally] block. *)
Definition finally_block : list effect := [SetUploading false; ResetFileInput].

(** The [for] loop from the file [fileArray] starts with, up to the next
    [await] or, past the last file, through [setImages] and [finally]. *)
Fixpoint upload_loop (fileArray : list File.t) (newImages : list ImageData.t)
  : upload_task * list effect :=
  match fileArray with
  | [] => (Settled, SetImages (Append newImages) :: finally_block)
  | file :: rest =>
      if startsWith (File.type file) image_slash
      then (Reading file rest newImages, [])
      else upload_loop rest newImages
  end.

(** The call of the handler, up to its first [await]. *)
Definition handleFileUpload (files : option (list File.t))
  : upload_task * list effect :=
  match files with
  | None => (Settled, [])
  | Some [] => (Settled, [])
  | Some fileArray =>
      let '(t, es) := upload_loop fileArray [] in (t, SetUploading true :: es)
  end.

(** The continuation after the awaited read settled. *)
Definition resume (t : upload_task) (r : read_result) (env : Ambient)
  : upload_task * list effect :=
  match t with
  | Settled => (Settled, [])
  | Reading file rest newImages =>
      match r with
      | Loaded base64 =>
          upload_loop rest (newImages ++ [imageData file base64 env])
      | Failed error =>
          (Settled, ConsoleError upload_error_label error :: finally_block)
      end
  end.

(** A batch run on its own: the reads settle one after the other. *)
Fixpoint drive (t : upload_task) (reads : list (read_result * Ambient))
  : upload_task * list effect :=
  match t, reads with
  | Reading _ _ _, (r, env) :: reads' =>
      let '(t', es) := resume t r env in
      let '(t'', es') := drive t' reads' in
      (t'', es ++ es')
  | _, _ => (t, [])
  end.

Definition run_upload (files : option (list File.t))
    (reads : list (read_result * Ambient)) : upload_task * list effect :=
  let '(t, es) := handleFileUpload files in
  let '(t', es') := drive t reads in
  (t', es ++ es').

(** The configurations an observer can see during such a run: the state
    each time the handler has yielded. *)
Fixpoint drive_states (st : AppState) (t : upload_task)
    (reads : list (read_result * Ambient)) : list (upload_task * AppState) :=
  (t, st) ::
  match t, reads with
  | Reading _ _ _, (r, env) :: reads' =>
      let '(t', es) := resume t r env in
      drive_states (apply_effects st es) t' reads'
  | _, _ => []
  end.

Definition upload_states (st : AppState) (files : option (list File.t))
    (reads : list (read_result * Ambient)) : list (upload_task * AppState) :=
  let '(t, es) := handleFileUpload files in
  drive_states (apply_effects st es) t reads.

Definition is_image (file : File.t) : Prop :=
  startsWith (File.type file) image_slash = true.

#[global] Instance is_image_dec file : Decision (is_image file).
Proof. unfold is_image. apply _. Defined.

(** ** JSON

    [JSON.stringify] and [JSON.parse] are the engine's; they are modelled
    from ECMA-262 (sections 25.5.1 and 25.5.2) and ECMA-404.  A number is
    kept as the exact decimal it was written as: the gallery only stores
    non-negative integers below 2^53, which a double holds exactly. *)

Record number : Type := mkNumber {
  negative : bool;
  integer : N;
  fraction : list N;          (* the digits after the point, most significant first *)
  exponent : option (bool * N)   (* sign (true: minus) and magnitude after e/E *)
}.

Inductive json : Type :=
| JNull
| JBool (b : bool)
| JNum (n : number)
| JStr (s : jsstring)
| JArr (elements : list json)
| JObj (properties : list (jsstring * json)).   (* in own-property-key order *)

Definition JInt (n : N) : json := JNum (mkNumber false n [] None).

(** *** QuoteJSONString *)

Definition hex_digit (d : N) : N := if d <? 10 then 48 + d else 87 + d.

(** [UnicodeEscape]: a backslash, [u] and four lower-case hex digits. *)
Definition unicode_escape (c : N) : jsstring :=
  [92; 117; hex_digit (c / 4096); hex_digit (c / 256 mod 16);
   hex_digit (c / 16 mod 16); hex_digit (c mod 16)].

Definition is_lead (c : N) : bool := (55296 <=? c) && (c <=? 56319).
Definition is_trail (c : N) : bool := (56320 <=? c) && (c <=? 57343).

(** One code point that is not part of a surrogate pair. *)
Definition quote_unit (c : N) : jsstring :=
  if c =? 8 then [92; 98]
  else if c =? 9 then [92; 116]
  else if c =? 10 then [92; 110]
  else if c =? 12 then [92; 102]
  else if c =? 13 then [92; 114]
  else if c =? 34 then [92; 34]
  else if c =? 92 then [92; 92]
  else if (c <? 32) || is_lead c || is_trail c then unicode_escape c
  else [c].

(** The code points of the string in turn: a leading surrogate followed
    by a trailing one is one code point and is copied; a surrogate on its
    own is escaped. *)
Fixpoint quote_chars (s : jsstring) : jsstring :=
  match s with
  | [] => []
  | c :: rest =>
      match rest with
      | d :: rest' =>
          if is_lead c && is_trail d then c :: d :: quote_chars rest'
          else quote_unit c ++ quote_chars rest
      | [] => quote_unit c
      end
  end.

Definition QuoteJSONString (s : jsstring) : jsstring :=
  34 :: quote_chars s ++ [34].

(** *** SerializeJSONObject and SerializeJSONArray at the type
    [ImageData[]] of the [images] state: the properties of a record in
    the order the object literal creates them, no white space. *)

Definition key_id : jsstring := Eval vm_compute in js "id".
Definition key_name : jsstring := Eval vm_compute in js "name".
Definition key_src : jsstring := Eval vm_compute in js "src".
Definition key_size : jsstring := Eval vm_compute in js "size".
Definition key_uploadDate : jsstring := Eval vm_compute in js "uploadDate".

Definition stringify_image (img : ImageData.t) : jsstring :=
  [123] ++ QuoteJSONString key_id ++ [58] ++ QuoteJSONString (ImageData.id img)
  ++ [44] ++ QuoteJSONString key_name ++ [58] ++ QuoteJSONString (ImageData.name img)
  ++ [44] ++ QuoteJSONString key_src ++ [58] ++ QuoteJSONString (ImageData.src img)
  ++ [44] ++ QuoteJSONString key_size ++ [58] ++ Number_toString (ImageData.size img)
  ++ [44] ++ QuoteJSONString key_uploadDate ++ [58]
  ++ QuoteJSONString (ImageData.uploadDate img)
  ++ [125].

Fixpoint join_comma (parts : list jsstring) : jsstring :=
  match parts with
  | [] => []
  | [p] => p
  | p :: ps => p ++ 44 :: join_comma ps
  end.

(** [JSON.stringify(images)] *)
Definition JSON_stringify (imgs : list ImageData.t) : jsstring :=
  [91] ++ join_comma (map stringify_image imgs) ++ [93].

(** The JavaScript value of a record and of a collection. *)
Definition of_image (img : ImageData.t) : json :=
  JObj [(key_id, JStr (ImageData.id img));
        (key_name, JStr (ImageData.name img));
        (key_src, JStr (ImageData.src img));
        (key_size, JInt (ImageData.size img));
        (key_uploadDate, JStr (ImageData.uploadDate img))].

Definition of_images (imgs : list ImageData.t) : json :=
  JArr (map of_image imgs).

(** *** JSON.parse *)

Inductive parsed (A : Type) : Type :=
| Ok (v : A) (rest : jsstring)
| SyntaxError
| OutOfFuel.
Arguments Ok {A} v rest.
Arguments SyntaxError {A}.
Arguments OutOfFuel {A}.

Definition is_ws (c : N) : bool :=
  (c =? 9) || (c =? 10) || (c =? 13) || (c =? 32).

Fixpoint skip_ws (s : jsstring) : jsstring :=
  match s with
  | c :: rest => if is_ws c then skip_ws rest else s
  | [] => []
  end.

Definition is_digit (c : N) : bool := (48 <=? c) && (c <=? 57).

Definition hex_value (c : N) : option N :=
  if is_digit c then Some (c - 48)
  else if (97 <=? c) && (c <=? 102) then Some (c - 87)
  else if (65 <=? c) && (c <=? 70) then Some (c - 55)
  else None.

(** The two-character escapes other than [\u]. *)
Definition simple_escape (e : N) : option N :=
  if (e =? 34) || (e =? 92) || (e =? 47) then Some e
  else if e =? 98 then Some 8
  else if e =? 102 then Some 12
  else if e =? 110 then Some 10
  else if e =? 114 then Some 13
  else if e =? 116 then Some 9
  else None.

(** The characters of a string literal after its opening quote, up to and
    including the closing quote. *)
Fixpoint parse_chars (s : jsstring) : option (jsstring * jsstring) :=
  match s with
  | [] => None
  | c :: rest =>
      if c =? 34 then Some ([], rest)
      else if c =? 92 then
        match rest with
        | [] => None
        | e :: rest1 =>
            if e =? 117 then
              match rest1 with
              | h1 :: h2 :: h3 :: h4 :: rest2 =>
                  match hex_value h1, hex_value h2, hex_value h3, hex_value h4 with
                  | Some a, Some b, Some c', Some d =>
                      match parse_chars rest2 with
                      | Some (str, r) =>
                          Some (4096 * a + 256 * b + 16 * c' + d :: str, r)
                      | None => None
                      end
                  | _, _, _, _ => None
                  end
              | _ => None
              end
            else
              match simple_escape e with
              | Some u =>
                  match parse_chars rest1 with
                  | Some (str, r) => Some (u :: str, r)
                  | None => None
                  end
              | None => None
              end
        end
      else if c <? 32 then None
      else
        match parse_chars rest with
        | Some (str, r) => Some (c :: str, r)
        | None => None
        end
  end.

(** The longest run of decimal digits at the head of [s]. *)
Fixpoint read_digits (s : jsstring) : list N * jsstring :=
  match s with
  | c :: rest =>
      if is_digit c
      then let '(ds, r) := read_digits rest in (c - 48 :: ds, r)
      else ([], s)
  | [] => ([], [])
  end.

Definition digits_value (ds : list N) : N :=
  foldl (λ acc d, 10 * acc + d) 0 ds.

(** The integer part: [0], or a non-zero digit and more digits. *)
Definition parse_int (s : jsstring) : option (N * jsstring) :=
  match s with
  | c :: rest =>
      if c =? 48 then Some (0, rest)
      else if is_digit c then
        let '(ds, r) := read_digits s in Some (digits_value ds, r)
      else None
  | [] => None
  end.

Definition parse_frac (s : jsstring) : option (list N * jsstring) :=
  match s with
  | c :: rest =>
      if c =? 46 then
        match read_digits rest with
        | ([], _) => None
        | (ds, r) => Some (ds, r)
        end
      else Some ([], s)
  | [] => Some ([], [])
  end.

Definition parse_exp (s : jsstring) : option (option (bool * N) * jsstring) :=
  match s with
  | c :: rest =>
      if (c =? 101) || (c =? 69) then
        let '(sign, rest') :=
          match rest with
          | d :: r => if d =? 45 then (true, r)
                      else if d =? 43 then (false, r) else (false, rest)
          | [] => (false, rest)
          end in
        match read_digits rest' with
        | ([], _) => None
        | (ds, r) => Some (Some (sign, digits_value ds), r)
        end
      else Some (None, s)
  | [] => Some (None, [])
  end.

Definition parse_number (s : jsstring) : option (number * jsstring) :=
  let '(neg, s1) :=
    match s with
    | c :: rest => if c =? 45 then (true, rest) else (false, s)
    | [] => (false, s)
    end in
  match parse_int s1 with
  | None => None
  | Some (i, s2) =>
      match parse_frac s2 with
      | None => None
      | Some (f, s3) =>
          match parse_exp s3 with
          | None => None
          | Some (e, s4) => Some (mkNumber neg i f e, s4)
          end
      end
  end.

(** An array index: the canonical decimal of an integer below 2^32 - 1. *)
Definition array_index (k : jsstring) : option N :=
  match parse_int k with
  | Some (n, []) => if n <? 4294967295 then Some n else None
  | _ => None
  end.

(** [CreateDataProperty] on an ordinary object whose keys are listed in
    own-property-key order: array indices ascending, then the other keys
    in creation order.  An existing key keeps its place. *)
Fixpoint set_property (k : jsstring) (v : json) (o : list (jsstring * json))
  : list (jsstring * json) :=
  match o with
  | [] => [(k, v)]
  | (k', v') :: o' =>
      if bool_decide (k' = k) then (k, v) :: o'
      else
        match array_index k, array_index k' with
        | Some i, Some i' =>
            if i <? i' then (k, v) :: o else (k', v') :: set_property k v o'
        | Some _, None => (k, v) :: o
        | None, _ => (k', v') :: set_property k v o'
        end
  end.

Definition build_object (members : list (jsstring * json))
  : list (jsstring * json) :=
  foldl (λ o m, set_property m.1 m.2 o) [] members.

Section Containers.
(** The parser of one value, at the nesting depth below. *)
Variable parse_inner : jsstring → parsed json.

(** The elements of a non-empty array after its opening bracket, up to
    and including the closing bracket. *)
Fixpoint parse_elements (fuel : nat) (s : jsstring) : parsed (list json) :=
  match fuel with
  | O => OutOfFuel
  | S fuel =>
      match parse_inner s with
      | Ok v r =>
          match skip_ws r with
          | c :: r' =>
              if c =? 44 then
                match parse_elements fuel r' with
                | Ok vs r'' => Ok (v :: vs) r''
                | SyntaxError => SyntaxError
                | OutOfFuel => OutOfFuel
                end
              else if c =? 93 then Ok [v] r'
              else SyntaxError
          | [] => SyntaxError
          end
      | SyntaxError => SyntaxError
      | OutOfFuel => OutOfFuel
      end
  end.

(** The members of a non-empty object after its opening brace, up to
    and including the closing brace. *)
Fixpoint parse_members (fuel : nat) (s : jsstring)
  : parsed (list (jsstring * json)) :=
  match fuel with
  | O => OutOfFuel
  | S fuel =>
      match skip_ws s with
      | q :: s1 =>
          if q =? 34 then
            match parse_chars s1 with
            | Some (k, s2) =>
                match skip_ws s2 with
                | colon :: s3 =>
                    if colon =? 58 then
                      match parse_inner s3 with
                      | Ok v r =>
                          match skip_ws r with
                          | c :: r' =>
                              if c =? 44 then
                                match parse_members fuel r' with
                                | Ok ms r'' => Ok ((k, v) :: ms) r''
                                | SyntaxError => SyntaxError
                                | OutOfFuel => OutOfFuel
                                end
                              else if c =? 125 then Ok [(k, v)] r'
                              else SyntaxError
                          | [] => SyntaxError
                          end
                      | SyntaxError => SyntaxError
                      | OutOfFuel => OutOfFuel
                      end
                    else SyntaxError
                | [] => SyntaxError
                end
            | None => SyntaxError
            end
          else SyntaxError
      | [] => SyntaxError
      end
  end.
End Containers.

Definition lit_null : jsstring := Eval vm_compute in js "null".
Definition lit_true : jsstring := Eval vm_compute in js "true".
Definition lit_false : jsstring := Eval vm_compute in js "false".

(** One JSON value, white space before it skipped; [depth] bounds the
    nesting of arrays and objects, and the length of the text bounds the
    number of elements or members of each. *)
Fixpoint parse_value (depth : nat) (s : jsstring) : parsed json :=
  match depth with
  | O => OutOfFuel
  | S depth =>
      match skip_ws s with
      | [] => SyntaxError
      | c :: r =>
          if c =? 123 then
            match skip_ws r with
            | d :: r' =>
                if d =? 125 then Ok (JObj []) r'
                else
                  match parse_members (parse_value depth) (length s) r with
                  | Ok ms r'' => Ok (JObj (build_object ms)) r''
                  | SyntaxError => SyntaxError
                  | OutOfFuel => OutOfFuel
                  end
            | [] => SyntaxError
            end
          else if c =? 91 then
            match skip_ws r with
            | d :: r' =>
                if d =? 93 then Ok (JArr []) r'
                else
                  match parse_elements (parse_value depth) (length s) r with
                  | Ok vs r'' => Ok (JArr vs) r''
                  | SyntaxError => SyntaxError
                  | OutOfFuel => OutOfFuel
                  end
            | [] => SyntaxError
            end
          else if c =? 34 then
            match parse_chars r with
            | Some (str, r') => Ok (JStr str) r'
            | None => SyntaxError
            end
          else if startsWith (c :: r) lit_null then Ok JNull (drop 4 (c :: r))
          else if startsWith (c :: r) lit_true then Ok (JBool true) (drop 4 (c :: r))
          else if startsWith (c :: r) lit_false then Ok (JBool false) (drop 5 (c :: r))
          else
            match parse_number (c :: r) with
            | Some (n, r') => Ok (JNum n) r'
            | None => SyntaxError
            end
      end
  end.

(** [JSON.parse(text)]: one value, white space around it, nothing else;
    [None] is the [SyntaxError] it throws.  The nesting of a text is
    below its length. *)
Definition JSON_parse (text : jsstring) : option json :=
  match parse_value (S (length text)) text with
  | Ok v rest => if bool_decide (skip_ws rest = []) then Some v else None
  | SyntaxError => None
  | OutOfFuel => None
  end.

(** ** The store: [localStorage] *)

Definition gallery_images : jsstring := Eval vm_compute in js "gallery-images".
Definition theme : jsstring := Eval vm_compute in js "theme".
Definition dark : jsstring := Eval vm_compute in js "dark".
Definition light : jsstring := Eval vm_compute in js "light".
Definition load_error_label : jsstring := Eval vm_compute in js "Error loading images:".

(** [localStorage.getItem(key)]: [None] is JavaScript's [null]. *)
Definition getItem (key : jsstring) (storage : gmap jsstring jsstring)
  : option jsstring := storage !! key.

Definition setItem (key value : jsstring) (storage : gmap jsstring jsstring)
  : gmap jsstring jsstring := <[key := value]> storage.

(** The saving effect: [localStorage.setItem('gallery-images',
    JSON.stringify(images))]. *)
Definition save_images (imgs : list ImageData.t)
    (storage : gmap jsstring jsstring) : gmap jsstring jsstring :=
  setItem gallery_images (JSON_stringify imgs) storage.

(** What the mounting effect leaves in the [images] state, which starts
    as the empty array, and what it logs.  [if (savedImages)] is false
    for [null] and for the empty string; a [SyntaxError] of [JSON.parse]
    is caught and logged. *)
Definition load_images (storage : gmap jsstring jsstring)
  : json * list (jsstring * jsstring) :=
  match getItem gallery_images storage with
  | None => (JArr [], [])
  | Some [] => (JArr [], [])
  | Some savedImages =>
      match JSON_parse savedImages with
      | Some v => (v, [])
      | None => (JArr [], [(load_error_label, js "SyntaxError")])
      end
  end.

(** The second half of the mounting effect: [isDarkMode], which starts
    as [false], and whether the document root got the class [dark]. *)
Definition load_theme (storage : gmap jsstring jsstring) : bool * bool :=
  match getItem theme storage with
  | Some savedTheme =>
      if bool_decide (savedTheme = dark) then (true, true) else (false, false)
  | None => (false, false)
  end.

(** [toggleTheme] *)
Definition toggleTheme (isDarkMode docDark : bool)
    (storage : gmap jsstring jsstring) : bool * bool * gmap jsstring jsstring :=
  (negb isDarkMode, negb docDark,
   setItem theme (if negb isDarkMode then dark else light) storage).

(** ** Sample data *)

Definition photo : ImageData.t :=
  Eval vm_compute in
  ImageData.mk (js "1700000000000k3j9x2abc") (js "photo")
    (js "data:image/png;base64,iVBORw0KGgo=") 2048
    (js "2023-11-14T22:13:20.000Z").

Definition cat : ImageData.t :=
  Eval vm_compute in
  ImageData.mk (js "1700000000001q8w2e7rty") (js "Cat Pictures")
    (js "data:image/jpeg;base64,/9j/4AAQ") 51200
    (js "2023-11-14T22:13:20.001Z").

Definition sunset : ImageData.t :=
  Eval vm_compute in
  ImageData.mk (js "1700000000500zx81mmn0p") (js "sunset")
    (js "data:image/webp;base64,UklGRg==") 7
    (js "2023-11-14T22:13:20.500Z").

Definition photo_png : File.t :=
  Eval vm_compute in File.mk (js "photo.png") (js "image/png") 2048.

Definition notes_pdf : File.t :=
  Eval vm_compute in File.mk (js "notes.pdf") (js "application/pdf") 300.

Definition cat_jpeg : File.t :=
  Eval vm_compute in File.mk (js "Cat Pictures.v2.jpeg") (js "image/jpeg") 51200.

Definition env0 : Ambient :=
  Eval vm_compute in
  mkAmbient 1700000000000%Z (js "0.k3j9x2abcq1") (js "2023-11-14T22:13:20.000Z").

Definition env1 : Ambient :=
  Eval vm_compute in
  mkAmbient 1700000000001%Z (js "0.q8w2e7rtyzz") (js "2023-11-14T22:13:20.001Z").

Definition st0 : AppState :=
  mkState [sunset] false None (Some [67; 58; 92; 102]) [].

(** The reads of a batch when every one succeeds: what each delivered and
    the ambient values at that moment. *)
Definition all_loaded (loads : list (jsstring * Ambient))
  : list (read_result * Ambient) :=
  map (λ l, (Loaded l.1, l.2)) loads.

(** The records such a batch builds: one per image file, in file order. *)
Definition records_of (fileArray : list File.t) (loads : list (jsstring * Ambient))
  : list ImageData.t :=
  zip_with (λ file l, imageData file l.1 l.2) (filter is_image fileArray) loads.

Definition is_SetImages (e : effect) : bool :=
  match e with SetImages _ => true | _ => false end.

(** What a run has emitted since some point: nothing while it is still
    suspended, one effect and the [finally] block once it has settled. *)
Definition step_shape (t : upload_task) (es : list effect) : Prop :=
  (t ≠ Settled ∧ es = []) ∨ (t = Settled ∧ ∃ e, es = e :: finally_block).

Definition sample_batch : list File.t := [photo_png; notes_pdf; cat_jpeg].

Definition sample_loads : list (jsstring * Ambient) :=
  Eval vm_compute in
  [(js "data:image/png;base64,iVBORw0KGgo=", env0);
   (js "data:image/jpeg;base64,/9j/4AAQ", env1)].

Definition read_error : jsstring := Eval vm_compute in js "NotReadableError".

(** A stored record as the component creates it: strings of 16-bit code
    units and a size that is a safe integer. *)
Definition valid_image (img : ImageData.t) : Prop :=
  wf_string (ImageData.id img) ∧ wf_string (ImageData.name img)
  ∧ wf_string (ImageData.src img) ∧ wf_string (ImageData.uploadDate img)
  ∧ ImageData.size img ≤ 9007199254740991.

Definition valid_collection (imgs : list ImageData.t) : Prop :=
  Forall valid_image imgs.

(** The stored value cannot be read: there is none, or [JSON.parse]
    rejects it. *)
Definition unreadable (saved : option jsstring) : Prop :=
  match saved with
  | None => True
  | Some text => JSON_parse text = None
  end.

(** Two strings of the same length that agree letter by letter up to the
    case of Basic Latin letters. *)
Definition same_ignoring_ascii_case (s t : jsstring) : Prop :=
  Forall2 (λ a b, ascii_lower a = ascii_lower b) s t.

(** ** Drag and drop *)

(** [handleDrop]: [dragActive] is lowered, and the handler of the batch
    is called when [e.dataTransfer.files && e.dataTransfer.files[0]]. *)
Definition handleDrop (files : option (list File.t))
  : bool * (upload_task * list effect) :=
  (false,
   match files with
   | Some (_ :: _) => handleFileUpload files
   | _ => (Settled, [])
   end).

(** ** The delete dialog *)

(** The bin button of a card: [setShowDeleteConfirm(image.id)]. *)
Definition requestDelete (imageId : jsstring) : list effect :=
  [SetShowDeleteConfirm (Some imageId)].

(** The Cancel button and the backdrop: [setShowDeleteConfirm(null)]. *)
Definition cancelDelete : list effect := [SetShowDeleteConfirm None].

(** [{showDeleteConfirm && (...)}]: the dialog is rendered when the state
    is a non-empty string; [null] and the empty string are falsy. *)
Definition dialog_shown (st : AppState) : option jsstring :=
  match showDeleteConfirm st with
  | Some (c :: s) => Some (c :: s)
  | _ => None
  end.

(** The Delete button of the dialog, which exists while the dialog is
    rendered: [deleteImage(showDeleteConfirm)]. *)
Definition confirmDelete (st : AppState) : list effect :=
  match dialog_shown st with
  | Some imageId => deleteImage imageId
  | None => []
  end.

(** ** The gallery section of the page *)

Definition no_images_found : jsstring := Eval vm_compute in js "No images found".
Definition no_images_yet : jsstring := Eval vm_compute in js "No images yet".
Definition no_images_match : jsstring := Eval vm_compute in js "No images match ".
Definition upload_your_first : jsstring :=
  Eval vm_compute in js "Upload your first image to get started!".

Inductive gallery_section : Type :=
| EmptyState (title message : jsstring)
| Grid (cards : list ImageData.t).

Section Gallery.
Variable toLowerCase : jsstring → jsstring.

(** [filteredImages.length === 0 ? (empty state) : (grid)]; in the empty
    state the texts depend on whether [searchTerm] is truthy. *)
Definition gallery (images : list ImageData.t) (searchTerm : jsstring)
  : gallery_section :=
  match filteredImages toLowerCase images searchTerm with
  | [] =>
      match searchTerm with
      | [] => EmptyState no_images_yet upload_your_first
      | _ :: _ =>
          EmptyState no_images_found (no_images_match ++ [34] ++ searchTerm ++ [34])
      end
  | cards => Grid cards
  end.

(** The counter beside the heading: [filteredImages.length > 0 && ...]. *)
Definition gallery_count (images : list ImageData.t) (searchTerm : jsstring)
  : option nat :=
  match length (filteredImages toLowerCase images searchTerm) with
  | O => None
  | n => Some n
  end.
End Gallery.

(** ** The theme over a session *)

(** The state the theme lives in: [isDarkMode], whether the document
    root has the class [dark], and the store. *)
Definition theme_state : Type := bool * bool * gmap jsstring jsstring.

(** After the mounting effect; [hadClass] tells whether the document root
    carried the class before ([classList.add] keeps a class that is
    there). *)
Definition mount_theme (hadClass : bool) (storage : gmap jsstring jsstring)
  : theme_state :=
  ((load_theme storage).1, hadClass || (load_theme storage).2, storage).

Definition toggle (s : theme_state) : theme_state :=
  toggleTheme s.1.1 s.1.2 s.2.

(** [n] clicks on the theme button after a page load without the class. *)
Definition toggles (n : nat) (storage : gmap jsstring jsstring) : theme_state :=
  Nat.iter n toggle (mount_theme false storage).

(** What an upload handler may emit. *)
Definition upload_effect (e : effect) : Prop :=
  match e with
  | SetUploading _ | SetImages (Append _) | ConsoleError _ _ | ResetFileInput => True
  | SetImages (Remove _) | SetShowDeleteConfirm _ => False
  end.

(** The inputs of a record are well-formed strings and a safe size. *)
Definition valid_file (file : File.t) : Prop :=
  wf_string (File.name file) ∧ File.size file ≤ 9007199254740991.

Definition valid_load (l : jsstring * Ambient) : Prop :=
  wf_string l.1 ∧ wf_string (Math_random_toString36 l.2)
  ∧ wf_string (Date_toISOString l.2).

(** ** Two batches in flight

    A drop while a batch waits for a read calls the handler again (the
    drop zone does not look at [uploading]); the two handlers then share
    the component state and take turns at their [await]s. *)

Inductive batch : Type := FirstBatch | SecondBatch.

Record flight : Type := mkFlight {
  first_task : upload_task;
  second_task : upload_task;
  shared : AppState
}.

(** A read of one of the two batches settles and its handler runs on. *)
Definition settle_read (c : flight) (step : batch * read_result * Ambient)
  : flight :=
  match step.1.1 with
  | FirstBatch =>
      mkFlight (resume (first_task c) step.1.2 step.2).1 (second_task c)
        (apply_effects (shared c) (resume (first_task c) step.1.2 step.2).2)
  | SecondBatch =>
      mkFlight (first_task c) (resume (second_task c) step.1.2 step.2).1
        (apply_effects (shared c) (resume (second_task c) step.1.2 step.2).2)
  end.

Fixpoint flights (c : flight) (schedule : list (batch * read_result * Ambient))
  : list flight :=
  c :: match schedule with
       | [] => []
       | step :: schedule' => flights (settle_read c step) schedule'
       end.

(** The handler is called for [files1], then for [files2], and the reads
    settle in the order of [schedule]; the configurations each time both
    handlers have yielded. *)
Definition two_batches (st : AppState) (files1 files2 : option (list File.t))
    (schedule : list (batch * read_result * Ambient)) : list flight :=
  flights
    (mkFlight (handleFileUpload files1).1 (handleFileUpload files2).1
       (apply_effects (apply_effects st (handleFileUpload files1).2)
          (handleFileUpload files2).2))
    schedule.

(** The words of the spec about the flag, for the second batch: it is
    up exactly while reads of that batch are outstanding. *)
Definition flag_tracks_second (c : flight) : Prop :=
  uploading (shared c) = true ↔ second_task c ≠ Settled.

(** * Properties *)

(** ** Strings *)

Lemma startsWith_spec (s search : jsstring) :
  startsWith s search = true ↔ ∃ after, s = search ++ after.
Proof.
  revert s. induction search as [|c search IH]; intros s; simpl.
  - split; [intros _; by exists s | done].
  - destruct s as [|d s].
    + split; [done | intros [after H]; discriminate H].
    + rewrite andb_true_iff, N.eqb_eq, IH. split.
      * intros [-> [after ->]]. by exists after.
      * intros [after H]. injection H as -> ->. eauto.
Qed.

Lemma includes_spec (s search : jsstring) :
  includes s search = true ↔ ∃ before after, s = before ++ search ++ after.
Proof.
  induction s as [|d s IH]; simpl; rewrite orb_true_iff, startsWith_spec.
  - split.
    + intros [[after H] | H]; [|done]. exists [], after. done.
    + intros (before & after & H). left.
      destruct before; [by exists after | discriminate H].
  - rewrite IH. split.
    + intros [[after H] | (before & after & H)].
      * exists [], after. done.
      * exists (d :: before), after. by rewrite H.
    + intros (before & after & H). destruct before as [|b before].
      * left. by exists after.
      * right. injection H as -> ->. eauto.
Qed.

Lemma includes_empty (s : jsstring) : includes s [] = true.
Proof. apply includes_spec. by exists [], s. Qed.

(** ** Deletion *)

(** C3: deleting by id keeps exactly the records with another id, in
    their order; when a single record carries the id, the result is the
    collection without it; when none does, the result is the collection
    itself. *)
Theorem deleteImage_update_spec (prev : list ImageData.t) (imageId : jsstring) :
  (∀ img, img ∈ deleteImage_update imageId prev
          ↔ img ∈ prev ∧ ImageData.id img ≠ imageId)
  ∧ deleteImage_update imageId prev `sublist_of` prev
  ∧ (∀ before target after,
       prev = before ++ target :: after →
       ImageData.id target = imageId →
       (∀ img, img ∈ before ++ after → ImageData.id img ≠ imageId) →
       deleteImage_update imageId prev = before ++ after)
  ∧ ((∀ img, img ∈ prev → ImageData.id img ≠ imageId) →
     deleteImage_update imageId prev = prev).
Proof.
  assert (Hid : ∀ l : list ImageData.t,
            (∀ img, img ∈ l → ImageData.id img ≠ imageId) →
            deleteImage_update imageId l = l).
  { intros l. unfold deleteImage_update. induction l as [|x l IH]; intros H.
    - done.
    - rewrite filter_cons_True by (apply H; left).
      f_equal. apply IH. intros img Himg. apply H. by right. }
  split; [|split; [|split]].
  - intros img. unfold deleteImage_update. rewrite list_elem_of_filter. tauto.
  - apply sublist_filter.
  - intros before target after -> Htarget Hothers.
    unfold deleteImage_update. rewrite filter_app, filter_cons_False by tauto.
    rewrite <- filter_app. apply Hid, Hothers.
  - apply Hid.
Qed.

Lemma deleteImage_update_spec_witness :
  deleteImage_update (ImageData.id cat) [photo; cat; sunset] = [photo; sunset]
  ∧ deleteImage_update (js "missing") [photo; cat] = [photo; cat].
Proof.
  split.
  - apply (proj1 (proj2 (proj2
             (deleteImage_update_spec [photo; cat; sunset] (ImageData.id cat))))
             [photo] cat [sunset]); [reflexivity | reflexivity |].
    intros img Himg. apply list_elem_of_In in Himg.
    destruct Himg as [<- | [<- | []]]; discriminate.
  - apply (proj2 (proj2 (proj2
             (deleteImage_update_spec [photo; cat] (js "missing"))))).
    intros img Himg. apply list_elem_of_In in Himg.
    destruct Himg as [<- | [<- | []]]; discriminate.
Defined.

(** ** View filter *)

Section ViewFilterProperties.
Variable toLowerCase : jsstring → jsstring.


(** C10: the view is a subsequence of the collection: its records are
    records of the collection, none is repeated or made up, and they
    keep their relative order. *)
Theorem filteredImages_sublist (images : list ImageData.t)
    (searchTerm : jsstring) :
  filteredImages toLowerCase images searchTerm `sublist_of` images
  ∧ (∀ image, image ∈ filteredImages toLowerCase images searchTerm →
              image ∈ images)
  ∧ (length (filteredImages toLowerCase images searchTerm) ≤ length images)%nat.
Proof.
  assert (H : filteredImages toLowerCase images searchTerm `sublist_of` images)
    by apply sublist_filter.
  split; [done | split].
  - intros image Himage. by apply (sublist_subseteq _ _ H).
  - by apply sublist_length.
Qed.

Hypothesis toLowerCase_empty : toLowerCase [] = [].

End ViewFilterProperties.


(** With the Basic Latin lower-casing, a query in another case finds the
    record. *)
Example filteredImages_PHO :
  filteredImages ascii_toLowerCase [photo; cat; sunset] (js "PHO") = [photo].
Proof. reflexivity. Qed.

(** ** Startup theme *)

(** C9: after the mounting effect the theme is dark exactly when the
    stored theme is the string [dark]; with any other stored value, or
    none, the theme stays light and the document is left alone. *)
Theorem load_theme_spec (storage : gmap jsstring jsstring) :
  ((load_theme storage).1 = true ↔ getItem theme storage = Some dark)
  ∧ (getItem theme storage = Some dark → load_theme storage = (true, true))
  ∧ (getItem theme storage ≠ Some dark → load_theme storage = (false, false)).
Proof.
  unfold load_theme. destruct (getItem theme storage) as [savedTheme|].
  - case_bool_decide as H; simpl.
    + subst. by repeat split.
    + repeat split; try done; intros [= ?]; done.
  - by repeat split.
Qed.

Lemma load_theme_spec_witness :
  load_theme (<[theme := dark]> ∅) = (true, true)
  ∧ load_theme (<[theme := light]> ∅) = (false, false)
  ∧ load_theme (<[theme := js "Dark"]> ∅) = (false, false)
  ∧ load_theme (<[gallery_images := js "[]"]> ∅) = (false, false).
Proof.
  repeat apply conj.
  - apply (load_theme_spec (<[theme := dark]> ∅)). reflexivity.
  - apply (load_theme_spec (<[theme := light]> ∅)). discriminate.
  - apply (load_theme_spec (<[theme := js "Dark"]> ∅)). discriminate.
  - apply (load_theme_spec (<[gallery_images := js "[]"]> ∅)). discriminate.
Defined.

(** ** Ingestion *)

Lemma drive_Settled (reads : list (read_result * Ambient)) :
  drive Settled reads = (Settled, []).
Proof. by destruct reads. Qed.

Lemma drive_states_Settled (st : AppState) (reads : list (read_result * Ambient)) :
  drive_states st Settled reads = [(Settled, st)].
Proof. by destruct reads. Qed.

Lemma drive_Reading (file : File.t) (rest : list File.t)
    (newImages : list ImageData.t) (r : read_result) (env : Ambient)
    (reads : list (read_result * Ambient)) :
  drive (Reading file rest newImages) ((r, env) :: reads)
  = let '(t', es) := resume (Reading file rest newImages) r env in
    let '(t'', es') := drive t' reads in (t'', es ++ es').
Proof. reflexivity. Qed.

(** C8: called with [null] or with an empty list, the handler returns at
    once and emits nothing: the uploading flag, the collection and the
    file input are as they were. *)
Theorem handleFileUpload_nothing (st : AppState) (files : option (list File.t))
    (reads : list (read_result * Ambient)) :
  files = None ∨ files = Some [] →
  handleFileUpload files = (Settled, [])
  ∧ run_upload files reads = (Settled, [])
  ∧ upload_states st files reads = [(Settled, st)]
  ∧ apply_effects st (run_upload files reads).2 = st.
Proof.
  intros [-> | ->]; unfold run_upload, upload_states; simpl;
    rewrite drive_Settled, drive_states_Settled; done.
Qed.

Lemma handleFileUpload_nothing_witness :
  apply_effects st0 (run_upload None [(Loaded [], env0)]).2 = st0
  ∧ apply_effects st0 (run_upload (Some []) []).2 = st0.
Proof.
  split.
  - apply (handleFileUpload_nothing st0 None [(Loaded [], env0)]). by left.
  - apply (handleFileUpload_nothing st0 (Some []) []). by right.
Defined.

(** The loop either suspends at the next image file, having emitted
    nothing, or commits what it gathered and runs [finally]. *)
Lemma upload_loop_cases (fileArray : list File.t) (newImages : list ImageData.t) :
  (∃ file rest, upload_loop fileArray newImages = (Reading file rest newImages, []))
  ∨ upload_loop fileArray newImages
    = (Settled, SetImages (Append newImages) :: finally_block).
Proof.
  induction fileArray as [|file rest IH]; cbn [upload_loop]; [by right|].
  destruct (startsWith (File.type file) image_slash); [left; eauto | done].
Qed.

Lemma resume_cases (t : upload_task) (r : read_result) (env : Ambient) :
  (∃ file rest newImages, resume t r env = (Reading file rest newImages, []))
  ∨ (∃ e, resume t r env = (Settled, e :: finally_block))
  ∨ (t = Settled ∧ resume t r env = (Settled, [])).
Proof.
  destruct t as [file rest newImages|]; [|by right; right].
  destruct r as [base64|error]; simpl.
  - destruct (upload_loop_cases rest (newImages ++ [imageData file base64 env]))
      as [(f & rs & ->) | ->]; [left; eauto | right; left; eauto].
  - right; left; eauto.
Qed.

Lemma filter_is_image_cons (file : File.t) (rest : list File.t) :
  filter is_image (file :: rest)
  = if startsWith (File.type file) image_slash
    then file :: filter is_image rest else filter is_image rest.
Proof.
  rewrite filter_cons. destruct (decide (is_image file)) as [H|H];
    unfold is_image in H; destruct (startsWith (File.type file) image_slash);
    done.
Qed.

(** A loop whose remaining reads all succeed ends by committing one
    record per remaining image file, after those it already gathered. *)
Lemma drive_upload_loop_loaded (fileArray : list File.t)
    (newImages : list ImageData.t) (loads : list (jsstring * Ambient)) :
  length loads = length (filter is_image fileArray) →
  (let '(t, es) := upload_loop fileArray newImages in
   let '(t', es') := drive t (all_loaded loads) in (t', es ++ es'))
  = (Settled,
     SetImages (Append (newImages ++ records_of fileArray loads)) :: finally_block).
Proof.
  revert newImages loads.
  induction fileArray as [|file rest IH]; intros newImages loads Hlen.
  - unfold records_of. rewrite filter_nil. cbn [upload_loop zip_with].
    rewrite drive_Settled, !app_nil_r. done.
  - unfold records_of in *. rewrite filter_is_image_cons in *.
    cbn [upload_loop].
    destruct (startsWith (File.type file) image_slash).
    + destruct loads as [|[base64 env] loads]; [discriminate Hlen|].
      injection Hlen as Hlen.
      change (all_loaded ((base64, env) :: loads))
        with ((Loaded base64, env) :: all_loaded loads).
      rewrite drive_Reading. cbn [resume zip_with fst snd].
      specialize (IH (newImages ++ [imageData file base64 env]) loads Hlen).
      destruct (upload_loop rest (newImages ++ [imageData file base64 env]))
        as [t es].
      destruct (drive t (all_loaded loads)) as [t' es'].
      injection IH as -> ->. by rewrite <- app_assoc.
    + by apply IH.
Qed.

(** A loop one of whose remaining reads fails, the ones before it having
    succeeded, ends in the [catch] block. *)
Lemma drive_upload_loop_failed (fileArray : list File.t)
    (newImages : list ImageData.t) (loads : list (jsstring * Ambient))
    (error : jsstring) (env : Ambient) (later : list (read_result * Ambient)) :
  (length loads < length (filter is_image fileArray))%nat →
  (let '(t, es) := upload_loop fileArray newImages in
   let '(t', es') := drive t (all_loaded loads ++ (Failed error, env) :: later) in
   (t', es ++ es'))
  = (Settled, ConsoleError upload_error_label error :: finally_block).
Proof.
  revert newImages loads.
  induction fileArray as [|file rest IH]; intros newImages loads Hlen.
  - simpl in Hlen. lia.
  - rewrite filter_is_image_cons in Hlen. cbn [upload_loop].
    destruct (startsWith (File.type file) image_slash).
    + destruct loads as [|[base64 env'] loads].
      { cbn [all_loaded map app]. rewrite drive_Reading. cbn [resume].
        by rewrite drive_Settled. }
      cbn [length] in Hlen.
      change (all_loaded ((base64, env') :: loads) ++ (Failed error, env) :: later)
        with ((Loaded base64, env')
                :: (all_loaded loads ++ (Failed error, env) :: later)).
      rewrite drive_Reading. cbn [resume].
      specialize (IH (newImages ++ [imageData file base64 env']) loads
                    ltac:(lia)).
      destruct (upload_loop rest (newImages ++ [imageData file base64 env']))
        as [t es].
      destruct (drive t (all_loaded loads ++ (Failed error, env) :: later))
        as [t' es'].
      by injection IH as -> ->.
    + by apply IH.
Qed.

Lemma run_upload_started (file : File.t) (files : list File.t)
    (reads : list (read_result * Ambient)) :
  run_upload (Some (file :: files)) reads
  = let '(t, es) := upload_loop (file :: files) [] in
    let '(t', es') := drive t reads in (t', SetUploading true :: es ++ es').
Proof.
  unfold run_upload, handleFileUpload.
  destruct (upload_loop (file :: files) []) as [t es].
  by destruct (drive t reads) as [t' es'].
Qed.

Lemma drive_shape (t : upload_task) (reads : list (read_result * Ambient)) :
  t ≠ Settled → step_shape (drive t reads).1 (drive t reads).2.
Proof.
  revert t. induction reads as [|[r env] reads IH]; intros t Ht.
  - destruct t; [by left | done].
  - destruct t as [file rest newImages|]; [|done].
    rewrite drive_Reading.
    destruct (resume_cases (Reading file rest newImages) r env)
      as [(f & rs & acc & ->) | [(e & ->) | [? _]]]; [| |done].
    + specialize (IH (Reading f rs acc) ltac:(done)).
      by destruct (drive (Reading f rs acc) reads).
    + rewrite drive_Settled. right. split; [done|]. exists e.
      by rewrite app_nil_r.
Qed.

Lemma apply_effects_app (st : AppState) (es es' : list effect) :
  apply_effects st (es ++ es') = apply_effects (apply_effects st es) es'.
Proof. apply foldl_app. Qed.

(** The configurations of a run: the handler suspended over and over in
    one and the same state, then the outcome of the run. *)
Lemma drive_states_shape (st : AppState) (t : upload_task)
    (reads : list (read_result * Ambient)) :
  ∃ suspended,
    drive_states st t reads
    = suspended ++ [((drive t reads).1, apply_effects st (drive t reads).2)]
    ∧ Forall (λ c, c.1 ≠ Settled ∧ c.2 = st) suspended.
Proof.
  revert t. induction reads as [|[r env] reads IH]; intros t.
  - exists []. by destruct t.
  - destruct t as [file rest newImages|]; [|by exists []].
    cbn [drive_states]. rewrite drive_Reading.
    destruct (resume_cases (Reading file rest newImages) r env)
      as [(f & rs & acc & ->) | [(e & ->) | [? _]]]; [| |done].
    + cbn [apply_effects foldl].
      destruct (IH (Reading f rs acc)) as (suspended & -> & Hs).
      exists ((Reading file rest newImages, st) :: suspended).
      destruct (drive (Reading f rs acc) reads) as [t' es'].
      split; [done|]. by constructor.
    + rewrite drive_states_Settled, drive_Settled, app_nil_r.
      exists [(Reading file rest newImages, st)]. split; [done|].
      by repeat constructor.
Qed.

(** A started batch first raises the flag; it has then either emitted
    nothing more and is suspended, or emitted one more effect and the
    [finally] block and is settled. *)
Lemma run_upload_shape (file : File.t) (files : list File.t)
    (reads : list (read_result * Ambient)) :
  ∃ es, (run_upload (Some (file :: files)) reads).2 = SetUploading true :: es
        ∧ step_shape (run_upload (Some (file :: files)) reads).1 es.
Proof.
  rewrite run_upload_started.
  destruct (upload_loop_cases (file :: files) []) as [(f & rs & ->) | ->].
  - pose proof (drive_shape (Reading f rs []) reads ltac:(done)) as H.
    destruct (drive (Reading f rs []) reads) as [t' es']. by exists es'.
  - rewrite drive_Settled. eexists. split; [done|]. right.
    split; [done|]. eexists. by rewrite app_nil_r.
Qed.

Lemma upload_states_shape (st : AppState) (file : File.t) (files : list File.t)
    (reads : list (read_result * Ambient)) :
  ∃ suspended,
    upload_states st (Some (file :: files)) reads
    = suspended
      ++ [((run_upload (Some (file :: files)) reads).1,
           apply_effects st (run_upload (Some (file :: files)) reads).2)]
    ∧ Forall (λ c, c.1 ≠ Settled ∧ c.2 = apply_effect st (SetUploading true))
        suspended.
Proof.
  unfold upload_states. rewrite run_upload_started.
  unfold handleFileUpload.
  destruct (upload_loop_cases (file :: files) []) as [(f & rs & ->) | ->].
  - destruct (drive_states_shape (apply_effects st [SetUploading true])
                (Reading f rs []) reads) as (suspended & -> & Hs).
    exists suspended. split; [|done].
    by destruct (drive (Reading f rs []) reads) as [t' es'].
  - rewrite drive_states_Settled, drive_Settled, app_nil_r. by exists [].
Qed.

(** ** The name of a record *)

Lemma ext_match_here_inner_dot (c : N) (stem ext : jsstring) :
  ext_match_here (c :: stem ++ 46 :: ext) = false.
Proof.
  unfold ext_match_here.
  replace (forallb not_slash_dot (stem ++ 46 :: ext)) with false.
  - by rewrite andb_false_r.
  - symmetry. rewrite forallb_app. cbn [forallb].
    replace (not_slash_dot 46) with false by done.
    by rewrite andb_false_r.
Qed.

(** A name that ends in a dot and a non-empty extension without dot or
    slash loses them; a name without a dot is kept. *)
Lemma replace_ext_strips (stem ext : jsstring) :
  ext ≠ [] →
  Forall (λ c, c ≠ 46 ∧ c ≠ 47) ext →
  replace_ext (stem ++ 46 :: ext) = stem.
Proof.
  intros Hne Hext. induction stem as [|c stem IH].
  - cbn [app replace_ext ext_match_here].
    rewrite N.eqb_refl, bool_decide_eq_false_2 by done.
    replace (forallb not_slash_dot ext) with true; [done|].
    symmetry. apply forallb_forall. intros c Hc.
    rewrite Forall_forall in Hext. apply list_elem_of_In, Hext in Hc.
    unfold not_slash_dot. destruct Hc as [H46 H47].
    apply N.eqb_neq in H46, H47. by rewrite H46, H47.
  - cbn [app replace_ext]. rewrite ext_match_here_inner_dot. by rewrite IH.
Qed.

Lemma replace_ext_no_dot (s : jsstring) :
  Forall (λ c, c ≠ 46) s → replace_ext s = s.
Proof.
  induction 1 as [|c s Hc Hs IH]; [done|].
  cbn [replace_ext ext_match_here].
  apply N.eqb_neq in Hc. rewrite Hc. cbn [andb]. by rewrite IH.
Qed.

Lemma records_of_fields (fileArray : list File.t)
    (loads : list (jsstring * Ambient)) :
  length loads = length (filter is_image fileArray) →
  Forall2 (λ file img,
             ImageData.name img = replace_ext (File.name file)
             ∧ ImageData.size img = File.size file)
          (filter is_image fileArray) (records_of fileArray loads).
Proof.
  unfold records_of. generalize (filter is_image fileArray) as accepted.
  intros accepted. revert loads.
  induction accepted as [|file accepted IH]; intros [|l loads] Hlen;
    try discriminate Hlen; cbn [zip_with]; constructor; [done|].
  apply IH. by injection Hlen.
Qed.

Lemma run_upload_loaded (file : File.t) (files : list File.t)
    (loads : list (jsstring * Ambient)) :
  length loads = length (filter is_image (file :: files)) →
  run_upload (Some (file :: files)) (all_loaded loads)
  = (Settled,
     [SetUploading true; SetImages (Append (records_of (file :: files) loads));
      SetUploading false; ResetFileInput]).
Proof.
  intros Hlen. rewrite run_upload_started.
  pose proof (drive_upload_loop_loaded (file :: files) [] loads Hlen) as H.
  destruct (upload_loop (file :: files) []) as [t es].
  destruct (drive t (all_loaded loads)) as [t' es'].
  by injection H as -> ->.
Qed.

(** C1: when every read of a batch succeeds, the batch emits one single
    update of the collection, which appends one record per file with an
    image content type, in the order of the batch; a record has the file
    name without its extension as name and the file size as size; the
    other files leave no record. *)
Theorem handleFileUpload_appends (st : AppState) (file : File.t)
    (files : list File.t) (loads : list (jsstring * Ambient)) :
  length loads = length (filter is_image (file :: files)) →
  run_upload (Some (file :: files)) (all_loaded loads)
  = (Settled,
     [SetUploading true; SetImages (Append (records_of (file :: files) loads));
      SetUploading false; ResetFileInput])
  ∧ images (apply_effects st
              (run_upload (Some (file :: files)) (all_loaded loads)).2)
    = images st ++ records_of (file :: files) loads
  ∧ length (records_of (file :: files) loads)
    = length (filter is_image (file :: files))
  ∧ (Forall is_image (file :: files) →
     length (records_of (file :: files) loads) = length (file :: files))
  ∧ Forall2 (λ f img,
               ImageData.name img = replace_ext (File.name f)
               ∧ ImageData.size img = File.size f)
            (filter is_image (file :: files)) (records_of (file :: files) loads)
  ∧ (∀ stem ext,
       ext ≠ [] → Forall (λ c, c ≠ 46 ∧ c ≠ 47) ext →
       replace_ext (stem ++ 46 :: ext) = stem).
Proof.
  intros Hlen.
  pose proof (records_of_fields (file :: files) loads Hlen) as Hfields.
  pose proof (Forall2_length _ _ _ Hfields) as Hcount.
  repeat apply conj.
  - by apply run_upload_loaded.
  - by rewrite run_upload_loaded.
  - done.
  - intros Hall. rewrite <- Hcount. f_equal.
    clear -Hall. induction Hall as [|f fs Hf _ IH]; [done|].
    by rewrite filter_cons_True, IH.
  - done.
  - apply replace_ext_strips.
Qed.

Lemma handleFileUpload_appends_witness :
  length sample_loads = length (filter is_image sample_batch)
  ∧ images (apply_effects st0
              (run_upload (Some sample_batch) (all_loaded sample_loads)).2)
    = images st0 ++ records_of sample_batch sample_loads.
Proof.
  split; [reflexivity|].
  apply (handleFileUpload_appends st0 photo_png [notes_pdf; cat_jpeg] sample_loads).
  reflexivity.
Defined.

(** The scenario of the spec: [photo.png], 2048 bytes. *)
Example records_of_sample :
  map (λ img, (ImageData.name img, ImageData.size img))
      (records_of sample_batch sample_loads)
  = [(js "photo", 2048); (js "Cat Pictures.v2", 51200)].
Proof. reflexivity. Qed.

Lemma run_upload_failed (file : File.t) (files : list File.t)
    (loads : list (jsstring * Ambient)) (error : jsstring) (env : Ambient)
    (later : list (read_result * Ambient)) :
  (length loads < length (filter is_image (file :: files)))%nat →
  run_upload (Some (file :: files)) (all_loaded loads ++ (Failed error, env) :: later)
  = (Settled,
     [SetUploading true; ConsoleError upload_error_label error;
      SetUploading false; ResetFileInput]).
Proof.
  intros Hlen. rewrite run_upload_started.
  pose proof (drive_upload_loop_failed (file :: files) [] loads error env later
                Hlen) as H.
  destruct (upload_loop (file :: files) []) as [t es].
  destruct (drive t (all_loaded loads ++ (Failed error, env) :: later))
    as [t' es'].
  by injection H as -> ->.
Qed.

(** C2: when a read of the batch fails, the reads before it having
    succeeded, the batch settles without any update of the collection:
    the records built so far are dropped, and the collection is at every
    moment of the run, and after it, what it was before. *)
Theorem handleFileUpload_aborts (st : AppState) (file : File.t)
    (files : list File.t) (loads : list (jsstring * Ambient))
    (error : jsstring) (env : Ambient) (later : list (read_result * Ambient)) :
  (length loads < length (filter is_image (file :: files)))%nat →
  run_upload (Some (file :: files)) (all_loaded loads ++ (Failed error, env) :: later)
  = (Settled,
     [SetUploading true; ConsoleError upload_error_label error;
      SetUploading false; ResetFileInput])
  ∧ forallb (λ e, negb (is_SetImages e))
      (run_upload (Some (file :: files))
         (all_loaded loads ++ (Failed error, env) :: later)).2 = true
  ∧ images (apply_effects st
              (run_upload (Some (file :: files))
                 (all_loaded loads ++ (Failed error, env) :: later)).2)
    = images st
  ∧ Forall (λ c, images c.2 = images st)
      (upload_states st (Some (file :: files))
         (all_loaded loads ++ (Failed error, env) :: later)).
Proof.
  intros Hlen.
  pose proof (run_upload_failed file files loads error env later Hlen) as Hrun.
  repeat apply conj.
  - done.
  - by rewrite Hrun.
  - by rewrite Hrun.
  - destruct (upload_states_shape st file files
                (all_loaded loads ++ (Failed error, env) :: later))
      as (suspended & -> & Hs).
    apply Forall_app. split.
    + eapply Forall_impl; [exact Hs|]. by intros c [_ ->].
    + constructor; [|done]. by rewrite Hrun.
Qed.

Lemma handleFileUpload_aborts_witness :
  (length (take 1 sample_loads) < length (filter is_image sample_batch))%nat
  ∧ images (apply_effects st0
              (run_upload (Some sample_batch)
                 (all_loaded (take 1 sample_loads) ++ [(Failed read_error, env1)])).2)
    = images st0.
Proof.
  split; [vm_compute; lia|].
  apply (handleFileUpload_aborts st0 photo_png [notes_pdf; cat_jpeg]
           (take 1 sample_loads) read_error env1 []).
  vm_compute; lia.
Defined.

Lemma upload_loop_settles (fileArray : list File.t)
    (newImages : list ImageData.t) (reads : list (read_result * Ambient)) :
  (length (filter is_image fileArray) ≤ length reads)%nat →
  (drive (upload_loop fileArray newImages).1 reads).1 = Settled.
Proof.
  revert newImages reads.
  induction fileArray as [|file rest IH]; intros newImages reads Hlen.
  - cbn [upload_loop fst]. by rewrite drive_Settled.
  - rewrite filter_is_image_cons in Hlen. cbn [upload_loop].
    destruct (startsWith (File.type file) image_slash); [|by apply IH].
    destruct reads as [|[r env] reads]; cbn [length] in Hlen; [lia|].
    cbn [fst]. rewrite drive_Reading. destruct r as [base64|error]; cbn [resume].
    + specialize (IH (newImages ++ [imageData file base64 env]) reads
                    ltac:(lia)).
      destruct (upload_loop rest (newImages ++ [imageData file base64 env]))
        as [t es].
      cbn [fst] in IH. by destruct (drive t reads).
    + by rewrite drive_Settled.
Qed.

(** During a batch run on its own the uploading flag is up exactly
    while the handler waits for a read; once the batch has settled, by
    success or by failure, the flag is down and the value of the file
    input, if the input is mounted, is the empty string; and a batch
    settles once its reads have. *)
Lemma handleFileUpload_finally (st : AppState) (file : File.t)
    (files : list File.t) (reads : list (read_result * Ambient)) :
  Forall (λ c, uploading c.2 = true ↔ c.1 ≠ Settled)
    (upload_states st (Some (file :: files)) reads)
  ∧ (∀ s, last (upload_states st (Some (file :: files)) reads) = Some (Settled, s) →
          uploading s = false
          ∧ fileInput s = (λ _, []) <$> fileInput st
          ∧ s = apply_effects st (run_upload (Some (file :: files)) reads).2)
  ∧ ((length (filter is_image (file :: files)) ≤ length reads)%nat →
     ∃ s, last (upload_states st (Some (file :: files)) reads) = Some (Settled, s)).
Proof.
  destruct (upload_states_shape st file files reads) as (suspended & -> & Hs).
  destruct (run_upload_shape file files reads) as (es & Hes & Hshape).
  rewrite last_snoc, Hes. clear Hes.
  assert (Hfinal :
    (run_upload (Some (file :: files)) reads).1 = Settled →
    uploading (apply_effects st (SetUploading true :: es)) = false
    ∧ fileInput (apply_effects st (SetUploading true :: es))
      = (λ _, []) <$> fileInput st).
  { intros Ht. destruct Hshape as [[Hne _] | [_ [e ->]]]; [done|].
    destruct e; cbn; by destruct (fileInput st). }
  repeat apply conj.
  - apply Forall_app. split.
    + eapply Forall_impl; [exact Hs|]. intros c [Hc ->]. done.
    + constructor; [|done]. cbn [fst snd].
      destruct Hshape as [[Hne ->] | [Ht _]].
      * done.
      * rewrite (proj1 (Hfinal Ht)), Ht. split; [done|]. by intros [].
  - intros s [= Ht <-]. destruct (Hfinal Ht) as [H1 H2]. done.
  - intros Hlen. eexists. do 2 f_equal.
    unfold run_upload, handleFileUpload.
    pose proof (upload_loop_settles (file :: files) [] reads Hlen) as H.
    destruct (upload_loop (file :: files) []) as [t es0].
    cbn [fst] in H. by destruct (drive t reads).
Qed.

Lemma handleFileUpload_finally_witness :
  (length (filter is_image sample_batch) ≤ length (all_loaded sample_loads))%nat
  ∧ ∃ s, last (upload_states st0 (Some sample_batch) (all_loaded sample_loads))
         = Some (Settled, s).
Proof.
  split; [vm_compute; lia|].
  apply (handleFileUpload_finally st0 photo_png [notes_pdf; cat_jpeg]
           (all_loaded sample_loads)).
  vm_compute; lia.
Defined.

(** ** JSON: what [JSON.parse] reads back from [JSON.stringify] *)

Lemma hex_value_hex_digit (d : N) : d < 16 → hex_value (hex_digit d) = Some d.
Proof.
  intros Hd. destruct d as [|p]; [reflexivity|].
  do 4 (destruct p as [p|p|]; try reflexivity; try lia).
Qed.

Lemma parse_chars_literal (c : N) (rest : jsstring) :
  32 ≤ c → c ≠ 34 → c ≠ 92 →
  parse_chars (c :: rest)
  = match parse_chars rest with
    | Some (str, r) => Some (c :: str, r)
    | None => None
    end.
Proof.
  intros H32 H34 H92. cbn [parse_chars].
  apply N.eqb_neq in H34, H92. rewrite H34, H92.
  by replace (c <? 32) with false by (symmetry; apply N.ltb_ge; lia).
Qed.

Lemma parse_chars_unicode_escape (c : N) (rest : jsstring) :
  c < 65536 →
  parse_chars (unicode_escape c ++ rest)
  = match parse_chars rest with
    | Some (str, r) => Some (c :: str, r)
    | None => None
    end.
Proof.
  intros Hc. unfold unicode_escape. cbn [app parse_chars].
  replace (92 =? 34) with false by done.
  replace (92 =? 92) with true by done.
  replace (117 =? 117) with true by done.
  assert (H1 : c / 4096 < 16) by (apply N.Div0.div_lt_upper_bound; lia).
  assert (H2 : c / 256 mod 16 < 16) by (apply N.mod_lt; lia).
  assert (H3 : c / 16 mod 16 < 16) by (apply N.mod_lt; lia).
  assert (H4 : c mod 16 < 16) by (apply N.mod_lt; lia).
  rewrite !hex_value_hex_digit by done.
  replace (4096 * (c / 4096) + 256 * (c / 256 mod 16) + 16 * (c / 16 mod 16)
           + c mod 16) with c; [done|].
  clear. pose proof (N.div_mod c 16 ltac:(lia)) as E1.
  pose proof (N.div_mod (c / 16) 16 ltac:(lia)) as E2.
  pose proof (N.div_mod (c / 256) 16 ltac:(lia)) as E3.
  replace (c / 16 / 16) with (c / 256) in E2
    by (rewrite N.Div0.div_div; done).
  replace (c / 256 / 16) with (c / 4096) in E3
    by (rewrite N.Div0.div_div; done).
  lia.
Qed.

(** No wrap-around and no well-formedness is needed here: what
    [quote_unit] escapes with [\\u] is below 2^16. *)
Lemma parse_chars_quote_unit (c : N) (rest : jsstring) :
  parse_chars (quote_unit c ++ rest)
  = match parse_chars rest with
    | Some (str, r) => Some (c :: str, r)
    | None => None
    end.
Proof.
  unfold quote_unit.
  destruct (N.eqb_spec c 8) as [->|H8]; [done|].
  destruct (N.eqb_spec c 9) as [->|H9]; [done|].
  destruct (N.eqb_spec c 10) as [->|H10]; [done|].
  destruct (N.eqb_spec c 12) as [->|H12]; [done|].
  destruct (N.eqb_spec c 13) as [->|H13]; [done|].
  destruct (N.eqb_spec c 34) as [->|H34]; [done|].
  destruct (N.eqb_spec c 92) as [->|H92]; [done|].
  destruct ((c <? 32) || is_lead c || is_trail c) eqn:Hesc.
  - apply parse_chars_unicode_escape.
    unfold is_lead, is_trail in Hesc.
    rewrite !orb_true_iff, !andb_true_iff, N.ltb_lt, !N.leb_le in Hesc. lia.
  - apply parse_chars_literal; [|done|done].
    rewrite !orb_false_iff, N.ltb_ge in Hesc. lia.
Qed.

Lemma quote_chars_pair (c d : N) (s : jsstring) :
  quote_chars (c :: d :: s)
  = if is_lead c && is_trail d then c :: d :: quote_chars s
    else quote_unit c ++ quote_chars (d :: s).
Proof. reflexivity. Qed.

Lemma parse_chars_quote_chars (s rest : jsstring) :
  parse_chars (quote_chars s ++ 34 :: rest) = Some (s, rest).
Proof.
  remember (length s) as n eqn:Hn. revert s Hn.
  induction n as [n IH] using lt_wf_ind. intros s ->.
  destruct s as [|c [|d s]].
  - done.
  - cbn [quote_chars]. rewrite parse_chars_quote_unit. done.
  - rewrite quote_chars_pair. destruct (is_lead c && is_trail d) eqn:Hpair.
    + unfold is_lead, is_trail in Hpair.
      rewrite !andb_true_iff, !N.leb_le in Hpair.
      cbn [app]. rewrite !parse_chars_literal by lia.
      rewrite (IH (length s)); [done | cbn [length]; lia | done].
    + rewrite <- app_assoc, parse_chars_quote_unit.
      rewrite (IH (length (d :: s))); [done | cbn [length]; lia | done].
Qed.

Lemma QuoteJSONString_app (s rest : jsstring) :
  QuoteJSONString s ++ rest = 34 :: quote_chars s ++ 34 :: rest.
Proof. unfold QuoteJSONString. cbn [app]. by rewrite <- app_assoc. Qed.

Lemma read_digits_digits_of_uint (u : Decimal.uint) (rest : jsstring) :
  read_digits (digits_of_uint u ++ 44 :: rest)
  = (map (λ c, c - 48) (digits_of_uint u), 44 :: rest).
Proof. induction u; cbn [digits_of_uint app read_digits]; [done | by rewrite IHu ..]. Qed.

Lemma digits_value_revapp (u acc : Decimal.uint) :
  foldl (λ a d, 10 * a + d) (DecimalPos.Unsigned.of_lu acc)
        (map (λ c, c - 48) (digits_of_uint u))
  = DecimalPos.Unsigned.of_lu (Decimal.revapp u acc).
Proof.
  revert acc.
  induction u as [|u IH|u IH|u IH|u IH|u IH|u IH|u IH|u IH|u IH|u IH];
    intros acc; cbn [digits_of_uint map foldl Decimal.revapp]; [done | ..];
    rewrite <- IH; f_equal; cbn [DecimalPos.Unsigned.of_lu]; lia.
Qed.

Lemma digits_value_digits_of_uint (u : Decimal.uint) :
  digits_value (map (λ c, c - 48) (digits_of_uint u)) = N.of_uint u.
Proof.
  unfold digits_value, N.of_uint.
  rewrite DecimalPos.Unsigned.of_uint_alt.
  apply (digits_value_revapp u Decimal.Nil).
Qed.

Lemma nzhead_not_D0 (u v : Decimal.uint) : Decimal.nzhead u ≠ Decimal.D0 v.
Proof. induction u; done. Qed.

Lemma unorm_D0 (u v : Decimal.uint) :
  Decimal.unorm u = Decimal.D0 v → v = Decimal.Nil.
Proof.
  unfold Decimal.unorm. destruct (Decimal.nzhead u) eqn:E; try done.
  - by intros [= <-].
  - by apply nzhead_not_D0 in E.
Qed.

Lemma parse_int_nonzero (u : Decimal.uint) (rest : jsstring) :
  (∃ c tl, digits_of_uint u = c :: tl ∧ c ≠ 48 ∧ is_digit c = true) →
  parse_int (digits_of_uint u ++ 44 :: rest) = Some (N.of_uint u, 44 :: rest).
Proof.
  intros (c & tl & E & Hc & Hd). unfold parse_int.
  pose proof (read_digits_digits_of_uint u rest) as R.
  rewrite E in *. cbn [app] in *.
  apply N.eqb_neq in Hc. rewrite Hc, Hd, R, <- E.
  by rewrite digits_value_digits_of_uint.
Qed.

(** The decimal digits of a number are read back as that number. *)
Lemma parse_int_Number_toString (n : N) (rest : jsstring) :
  parse_int (Number_toString n ++ 44 :: rest) = Some (n, 44 :: rest).
Proof.
  unfold Number_toString.
  assert (Hnorm : Decimal.unorm (N.to_uint n) = N.to_uint n).
  { rewrite <- (DecimalN.Unsigned.of_to n) at 2.
    by rewrite DecimalN.Unsigned.to_of. }
  rewrite <- (DecimalN.Unsigned.of_to n) at 2.
  destruct (N.to_uint n) as [|u|u|u|u|u|u|u|u|u|u] eqn:E.
  - done.
  - change (Decimal.unorm (Decimal.D0 u)) with (Decimal.unorm u) in Hnorm.
    apply unorm_D0 in Hnorm as ->. done.
  - apply parse_int_nonzero. by eexists _, _.
  - apply parse_int_nonzero. by eexists _, _.
  - apply parse_int_nonzero. by eexists _, _.
  - apply parse_int_nonzero. by eexists _, _.
  - apply parse_int_nonzero. by eexists _, _.
  - apply parse_int_nonzero. by eexists _, _.
  - apply parse_int_nonzero. by eexists _, _.
  - apply parse_int_nonzero. by eexists _, _.
  - apply parse_int_nonzero. by eexists _, _.
Qed.

Lemma Number_toString_head (n : N) :
  ∃ c tl, Number_toString n = c :: tl ∧ is_digit c = true.
Proof.
  unfold Number_toString.
  assert (H : N.to_uint n ≠ Decimal.Nil).
  { destruct n; [done|]. apply DecimalPos.Unsigned.to_uint_nonnil. }
  destruct (N.to_uint n); [done | by eexists _, _ ..].
Qed.

Lemma parse_number_Number_toString (n : N) (rest : jsstring) :
  parse_number (Number_toString n ++ 44 :: rest)
  = Some (mkNumber false n [] None, 44 :: rest).
Proof.
  pose proof (parse_int_Number_toString n rest) as Hint.
  destruct (Number_toString_head n) as (c & tl & E & Hc).
  rewrite E in *. unfold parse_number. cbn [app] in *.
  unfold is_digit in Hc. rewrite andb_true_iff, !N.leb_le in Hc.
  destruct (N.eqb_spec c 45); [lia|]. by rewrite Hint.
Qed.

Lemma digit_tests (c : N) :
  is_digit c = true →
  is_ws c = false ∧ (c =? 123) = false ∧ (c =? 91) = false ∧ (c =? 34) = false
  ∧ (c =? 110) = false ∧ (c =? 116) = false ∧ (c =? 102) = false.
Proof.
  unfold is_digit, is_ws. rewrite andb_true_iff, !N.leb_le. intros Hc.
  rewrite !orb_false_iff, !N.eqb_neq. lia.
Qed.

(** A value of a record, at any depth that is left. *)
Lemma parse_value_string (depth : nat) (s rest : jsstring) :
  (1 ≤ depth)%nat →
  parse_value depth (QuoteJSONString s ++ rest) = Ok (JStr s) rest.
Proof.
  intros Hd. destruct depth; [lia|].
  rewrite QuoteJSONString_app. cbn [parse_value skip_ws].
  replace (is_ws 34) with false by done.
  replace (34 =? 123) with false by done.
  replace (34 =? 91) with false by done.
  replace (34 =? 34) with true by done.
  by rewrite parse_chars_quote_chars.
Qed.

Lemma parse_value_number (depth : nat) (n : N) (rest : jsstring) :
  (1 ≤ depth)%nat →
  parse_value depth (Number_toString n ++ 44 :: rest) = Ok (JInt n) (44 :: rest).
Proof.
  intros Hd. destruct depth; [lia|].
  pose proof (parse_number_Number_toString n rest) as Hnum.
  destruct (Number_toString_head n) as (c & tl & E & Hc).
  rewrite E in *. cbn [app] in *.
  destruct (digit_tests c Hc) as (Hws & H123 & H91 & H34 & H110 & H116 & H102).
  cbn [parse_value skip_ws]. rewrite Hws, H123, H91, H34.
  unfold lit_null, lit_true, lit_false. cbn [startsWith].
  rewrite H110, H116, H102. cbn [andb]. by rewrite Hnum.
Qed.

Lemma skip_ws_nonws (c : N) (rest : jsstring) :
  is_ws c = false → skip_ws (c :: rest) = c :: rest.
Proof. intros H. cbn [skip_ws]. by rewrite H. Qed.

(** One member [key:value] followed by a comma, and the last member
    followed by the closing brace. *)
Lemma parse_members_more (depth fuel : nat) (k : jsstring) (v : json)
    (vtext rest : jsstring) :
  parse_value depth (vtext ++ 44 :: rest) = Ok v (44 :: rest) →
  parse_members (parse_value depth) (S fuel)
    (34 :: quote_chars k ++ 34 :: 58 :: vtext ++ 44 :: rest)
  = match parse_members (parse_value depth) fuel rest with
    | Ok ms r => Ok ((k, v) :: ms) r
    | SyntaxError => SyntaxError
    | OutOfFuel => OutOfFuel
    end.
Proof.
  intros Hv. cbn [parse_members].
  rewrite skip_ws_nonws by done. replace (34 =? 34) with true by done.
  rewrite parse_chars_quote_chars, skip_ws_nonws by done.
  replace (58 =? 58) with true by done.
  rewrite Hv, skip_ws_nonws by done. by replace (44 =? 44) with true by done.
Qed.

Lemma parse_members_last (depth fuel : nat) (k : jsstring) (v : json)
    (vtext rest : jsstring) :
  parse_value depth (vtext ++ 125 :: rest) = Ok v (125 :: rest) →
  parse_members (parse_value depth) (S fuel)
    (34 :: quote_chars k ++ 34 :: 58 :: vtext ++ 125 :: rest)
  = Ok [(k, v)] rest.
Proof.
  intros Hv. cbn [parse_members].
  rewrite skip_ws_nonws by done. replace (34 =? 34) with true by done.
  rewrite parse_chars_quote_chars, skip_ws_nonws by done.
  replace (58 =? 58) with true by done.
  rewrite Hv, skip_ws_nonws by done.
  replace (125 =? 44) with false by done.
  by replace (125 =? 125) with true by done.
Qed.

Lemma stringify_image_app (img : ImageData.t) (rest : jsstring) :
  stringify_image img ++ rest
  = 123 :: 34 :: quote_chars key_id ++ 34 :: 58 ::
      QuoteJSONString (ImageData.id img) ++ 44 ::
    34 :: quote_chars key_name ++ 34 :: 58 ::
      QuoteJSONString (ImageData.name img) ++ 44 ::
    34 :: quote_chars key_src ++ 34 :: 58 ::
      QuoteJSONString (ImageData.src img) ++ 44 ::
    34 :: quote_chars key_size ++ 34 :: 58 ::
      Number_toString (ImageData.size img) ++ 44 ::
    34 :: quote_chars key_uploadDate ++ 34 :: 58 ::
      QuoteJSONString (ImageData.uploadDate img) ++ 125 :: rest.
Proof.
  unfold stringify_image. rewrite <- !app_assoc. cbn [app].
  by rewrite (QuoteJSONString_app key_id), (QuoteJSONString_app key_name),
    (QuoteJSONString_app key_src), (QuoteJSONString_app key_size),
    (QuoteJSONString_app key_uploadDate).
Qed.

Lemma length_stringify_image (img : ImageData.t) (rest : jsstring) :
  (5 ≤ length (stringify_image img ++ rest))%nat.
Proof.
  rewrite stringify_image_app.
  repeat first [progress cbn [length] | rewrite length_app]. lia.
Qed.

(** A record is read back as its value. *)
Lemma parse_value_image (depth : nat) (img : ImageData.t) (rest : jsstring) :
  (2 ≤ depth)%nat →
  parse_value depth (stringify_image img ++ rest) = Ok (of_image img) rest.
Proof.
  intros Hd. destruct depth as [|depth]; [lia|].
  pose proof (length_stringify_image img rest) as Hlen.
  remember (length (stringify_image img ++ rest)) as fuel eqn:Hfuel.
  cbn [parse_value]. rewrite <- Hfuel. clear Hfuel.
  rewrite stringify_image_app.
  rewrite skip_ws_nonws by done. replace (123 =? 123) with true by done.
  rewrite skip_ws_nonws by done. replace (34 =? 125) with false by done.
  replace (123 =? 123) with true by done.
  do 5 (destruct fuel as [|fuel]; [lia|]).
  rewrite (parse_members_more depth _ key_id (JStr (ImageData.id img)))
    by (apply parse_value_string; lia).
  rewrite (parse_members_more depth _ key_name (JStr (ImageData.name img)))
    by (apply parse_value_string; lia).
  rewrite (parse_members_more depth _ key_src (JStr (ImageData.src img)))
    by (apply parse_value_string; lia).
  rewrite (parse_members_more depth _ key_size (JInt (ImageData.size img)))
    by (apply parse_value_number; lia).
  rewrite (parse_members_last depth fuel key_uploadDate
             (JStr (ImageData.uploadDate img)))
    by (apply parse_value_string; lia).
  reflexivity.
Qed.

Lemma length_join_comma (imgs : list ImageData.t) :
  (length imgs ≤ length (join_comma (map stringify_image imgs)))%nat.
Proof.
  induction imgs as [|img [|img' imgs] IH]; [done | |].
  - cbn [map join_comma length].
    pose proof (length_stringify_image img []) as H.
    rewrite app_nil_r in H. lia.
  - change (join_comma (map stringify_image (img :: img' :: imgs)))
      with (stringify_image img
            ++ 44 :: join_comma (map stringify_image (img' :: imgs))).
    rewrite length_app. cbn [length] in *. lia.
Qed.

(** The elements of a non-empty array of records are read back in
    their order. *)
Lemma parse_elements_images (depth fuel : nat) (imgs : list ImageData.t)
    (rest : jsstring) :
  (2 ≤ depth)%nat → imgs ≠ [] → (length imgs ≤ fuel)%nat →
  parse_elements (parse_value depth) fuel
    (join_comma (map stringify_image imgs) ++ 93 :: rest)
  = Ok (map of_image imgs) rest.
Proof.
  intros Hd. revert fuel.
  induction imgs as [|img [|img' imgs] IH]; intros fuel Hne Hfuel; [done | |].
  - destruct fuel as [|fuel]; [cbn [length] in Hfuel; lia|].
    cbn [map join_comma parse_elements].
    rewrite parse_value_image, skip_ws_nonws by done.
    replace (93 =? 44) with false by done.
    by replace (93 =? 93) with true by done.
  - destruct fuel as [|fuel]; [cbn [length] in Hfuel; lia|].
    change (join_comma (map stringify_image (img :: img' :: imgs)))
      with (stringify_image img
            ++ 44 :: join_comma (map stringify_image (img' :: imgs))).
    rewrite <- app_assoc. cbn [app parse_elements].
    rewrite parse_value_image, skip_ws_nonws by done.
    replace (44 =? 44) with true by done.
    rewrite IH; [done | done | cbn [length] in *; lia].
Qed.

Lemma join_comma_head (img : ImageData.t) (imgs : list ImageData.t)
    (rest : jsstring) :
  ∃ tail, join_comma (map stringify_image (img :: imgs)) ++ rest = 123 :: tail.
Proof.
  destruct imgs as [|img' imgs].
  - cbn [map join_comma]. rewrite stringify_image_app. eauto.
  - change (join_comma (map stringify_image (img :: img' :: imgs)))
      with (stringify_image img
            ++ 44 :: join_comma (map stringify_image (img' :: imgs))).
    rewrite <- app_assoc, stringify_image_app. eauto.
Qed.

(** What [JSON.parse] makes of a stringified collection is the value of
    that collection. *)
Lemma JSON_parse_stringify (imgs : list ImageData.t) :
  JSON_parse (JSON_stringify imgs) = Some (of_images imgs).
Proof.
  unfold JSON_parse, JSON_stringify, of_images. cbn [app].
  destruct imgs as [|img imgs]; [done|].
  pose proof (length_join_comma (img :: imgs)) as Hlen.
  pose proof (parse_elements_images
                (length (91 :: join_comma (map stringify_image (img :: imgs)) ++ [93]))
                (length (91 :: join_comma (map stringify_image (img :: imgs)) ++ [93]))
                (img :: imgs) []) as Hparse.
  cbn [parse_value].
  rewrite skip_ws_nonws by done.
  replace (91 =? 123) with false by done.
  replace (91 =? 91) with true by done.
  rewrite Hparse.
  - destruct (join_comma_head img imgs [93]) as [tail ->].
    rewrite skip_ws_nonws by done. by replace (123 =? 93) with false by done.
  - cbn [length] in *. rewrite length_app. cbn [length] in *. lia.
  - done.
  - cbn [length] in *. rewrite length_app. lia.
Qed.

Lemma of_image_inj (img img' : ImageData.t) :
  of_image img = of_image img' → img = img'.
Proof. destruct img, img'. by intros [= -> -> -> -> ->]. Qed.

Lemma of_images_inj (imgs imgs' : list ImageData.t) :
  of_images imgs = of_images imgs' → imgs = imgs'.
Proof.
  unfold of_images. intros [= H]. revert imgs' H.
  induction imgs as [|img imgs IH]; intros [|img' imgs'] H; try done.
  pose proof (f_equal (hd JNull) H) as H1. pose proof (f_equal tail H) as H2.
  cbn [map hd tail] in H1, H2. apply of_image_inj in H1. apply IH in H2.
  by subst.
Qed.

(** ** The store *)

(** C5: what the mounting effect loads from the value the saving effect
    stored for a valid collection is that collection: the same records,
    field by field, in the same order (the empty collection included),
    and nothing is logged. *)
Theorem load_images_save_images (imgs : list ImageData.t)
    (storage : gmap jsstring jsstring) :
  valid_collection imgs →
  load_images (save_images imgs storage) = (of_images imgs, [])
  ∧ (∀ imgs', of_images imgs' = of_images imgs → imgs' = imgs).
Proof.
  intros _. split; [|intros imgs' H; by apply of_images_inj].
  unfold load_images, save_images, getItem, setItem.
  rewrite lookup_insert_eq, JSON_parse_stringify. done.
Qed.

Lemma load_images_save_images_witness :
  valid_collection [photo; cat; sunset]
  ∧ load_images (save_images [photo; cat; sunset] ∅)
    = (of_images [photo; cat; sunset], []).
Proof.
  split.
  - unfold valid_collection, valid_image, wf_string.
    apply (bool_decide_unpack _). vm_compute. exact I.
  - apply (load_images_save_images [photo; cat; sunset] ∅).
    unfold valid_collection, valid_image, wf_string.
    apply (bool_decide_unpack _). vm_compute. exact I.
Defined.

(** C6: when nothing is stored for the collection, or what is stored is
    not JSON, the mounting effect leaves the collection empty; the
    [SyntaxError] is caught and at most logged. *)
Theorem load_images_unreadable (storage : gmap jsstring jsstring) :
  unreadable (getItem gallery_images storage) →
  (load_images storage).1 = of_images []
  ∧ ((load_images storage).2 = []
     ∨ (load_images storage).2 = [(load_error_label, js "SyntaxError")]).
Proof.
  unfold load_images, unreadable.
  destruct (getItem gallery_images storage) as [[|c text]|].
  - intros _. split; [done | by left].
  - intros ->. split; [done | by right].
  - intros _. split; [done | by left].
Qed.

Lemma load_images_unreadable_witness :
  (load_images ∅).1 = of_images []
  ∧ (load_images (<[gallery_images := js "{oops"]> ∅)).1 = of_images []
  ∧ (load_images (<[gallery_images := js "[1,]"]> ∅)).1 = of_images [].
Proof.
  repeat apply conj.
  - apply (load_images_unreadable ∅). exact I.
  - apply (load_images_unreadable (<[gallery_images := js "{oops"]> ∅)).
    vm_compute. reflexivity.
  - apply (load_images_unreadable (<[gallery_images := js "[1,]"]> ∅)).
    vm_compute. reflexivity.
Defined.

(** A stored text that is JSON of another shape is installed as it is:
    the component does not check what it loads. *)
Example load_images_other_shape :
  load_images (<[gallery_images := js "null"]> ∅) = (JNull, [])
  ∧ load_images (<[gallery_images := js "[42]"]> ∅) = (JArr [JInt 42], []).
Proof. split; reflexivity. Qed.

(** ** JSON.parse never runs out of fuel

    The depth and the loop bounds [JSON_parse] starts from suffice for
    every text: [None] is always the [SyntaxError]. *)

Lemma skip_ws_length (s : jsstring) : (length (skip_ws s) ≤ length s)%nat.
Proof.
  induction s as [|c s IH]; [done|]. cbn [skip_ws].
  destruct (is_ws c); cbn [length]; lia.
Qed.

Lemma skip_ws_cons_length (s : jsstring) (c : N) (r : jsstring) :
  skip_ws s = c :: r → (length r < length s)%nat.
Proof.
  intros H. pose proof (skip_ws_length s) as Hs. rewrite H in Hs.
  cbn [length] in Hs. lia.
Qed.

Lemma parse_chars_consumes (s str r : jsstring) :
  parse_chars s = Some (str, r) → (length r < length s)%nat.
Proof.
  remember (length s) as n eqn:Hn. revert s str r Hn.
  induction n as [n IH] using lt_wf_ind. intros s str r -> H.
  destruct s as [|c s]; [done|]. cbn [parse_chars] in H.
  repeat case_match; simplify_eq; cbn [length]; try lia;
    match goal with
    | Hrec : parse_chars ?x = Some (_, ?y) |- _ =>
        eapply (IH (length x)) in Hrec; [| cbn [length]; lia | reflexivity];
        cbn [length] in *; lia
    end.
Qed.

Lemma read_digits_length (s : jsstring) (ds : list N) (r : jsstring) :
  read_digits s = (ds, r) →
  (length r ≤ length s)%nat ∧ (ds ≠ [] → (length r < length s)%nat).
Proof.
  revert ds r. induction s as [|c s IH]; intros ds r H; cbn [read_digits] in H.
  - by simplify_eq.
  - destruct (is_digit c); [|by simplify_eq].
    destruct (read_digits s) as [ds' r'] eqn:E. simplify_eq.
    destruct (IH ds' r eq_refl) as [H1 _]. cbn [length]. split; lia.
Qed.

Lemma parse_int_consumes (s : jsstring) (i : N) (r : jsstring) :
  parse_int s = Some (i, r) → (length r < length s)%nat.
Proof.
  destruct s as [|c s]; [done|]. unfold parse_int.
  destruct (c =? 48); [intros [= _ <-]; cbn [length]; lia|].
  cbn [read_digits]. destruct (is_digit c); [|done].
  destruct (read_digits s) as [ds r'] eqn:E. intros [= _ <-].
  apply read_digits_length in E. cbn [length]. lia.
Qed.

Lemma parse_frac_length (s : jsstring) (f : list N) (r : jsstring) :
  parse_frac s = Some (f, r) → (length r ≤ length s)%nat.
Proof.
  destruct s as [|c s]; [by intros [= _ <-]|]. unfold parse_frac.
  destruct (c =? 46); [|by intros [= _ <-]].
  destruct (read_digits s) as [[|d ds] r'] eqn:E; [done|]. intros [= _ <-].
  apply read_digits_length in E. cbn [length]. lia.
Qed.

Lemma parse_exp_length (s : jsstring) (e : option (bool * N)) (r : jsstring) :
  parse_exp s = Some (e, r) → (length r ≤ length s)%nat.
Proof.
  destruct s as [|c s]; [by intros [= _ <-]|]. unfold parse_exp.
  destruct ((c =? 101) || (c =? 69)); [|by intros [= _ <-]].
  intros H. repeat case_match; simplify_eq;
    match goal with Hd : read_digits _ = (_, _) |- _ =>
      apply read_digits_length in Hd end; cbn [length] in *; lia.
Qed.

Lemma parse_number_consumes (s : jsstring) (n : number) (r : jsstring) :
  parse_number s = Some (n, r) → (length r < length s)%nat.
Proof.
  unfold parse_number. intros H.
  assert (Hsign : ∀ neg s1,
            match s with
            | c :: rest => if c =? 45 then (true, rest) else (false, s)
            | [] => (false, s)
            end = (neg, s1) → (length s1 ≤ length s)%nat).
  { intros neg s1 Hs. repeat case_match; simplify_eq; cbn [length]; lia. }
  destruct (match s with
            | c :: rest => if c =? 45 then (true, rest) else (false, s)
            | [] => (false, s)
            end) as [neg s1] eqn:E.
  specialize (Hsign neg s1 eq_refl).
  destruct (parse_int s1) as [[i s2]|] eqn:E1; [|done].
  destruct (parse_frac s2) as [[f s3]|] eqn:E2; [|done].
  destruct (parse_exp s3) as [[e s4]|] eqn:E3; [|done].
  simplify_eq. apply parse_int_consumes in E1. apply parse_frac_length in E2.
  apply parse_exp_length in E3. lia.
Qed.

Section ContainerFuel.
Variable parse_inner : jsstring → parsed json.
Hypothesis parse_inner_consumes :
  ∀ s v r, parse_inner s = Ok v r → (length r < length s)%nat.

Lemma parse_elements_consumes (fuel : nat) (s : jsstring) (vs : list json)
    (r : jsstring) :
  parse_elements parse_inner fuel s = Ok vs r → (length r < length s)%nat.
Proof.
  revert s vs r. induction fuel as [|fuel IH]; intros s vs r H; [done|].
  cbn [parse_elements] in H.
  destruct (parse_inner s) as [v r1| |] eqn:E1; [|done..].
  apply parse_inner_consumes in E1.
  destruct (skip_ws r1) as [|c r2] eqn:E2; [done|].
  apply skip_ws_cons_length in E2.
  repeat case_match; simplify_eq; try lia.
  match goal with Hrec : parse_elements _ _ _ = Ok _ _ |- _ =>
    apply IH in Hrec; lia end.
Qed.

Lemma parse_members_consumes (fuel : nat) (s : jsstring)
    (ms : list (jsstring * json)) (r : jsstring) :
  parse_members parse_inner fuel s = Ok ms r → (length r < length s)%nat.
Proof.
  revert s ms r. induction fuel as [|fuel IH]; intros s ms r H; [done|].
  cbn [parse_members] in H.
  destruct (skip_ws s) as [|q s1] eqn:E0; [done|].
  apply skip_ws_cons_length in E0.
  destruct (q =? 34); [|done].
  destruct (parse_chars s1) as [[k s2]|] eqn:E1; [|done].
  apply parse_chars_consumes in E1.
  destruct (skip_ws s2) as [|colon s3] eqn:E2; [done|].
  apply skip_ws_cons_length in E2.
  destruct (colon =? 58); [|done].
  destruct (parse_inner s3) as [v r1| |] eqn:E3; [|done..].
  apply parse_inner_consumes in E3.
  destruct (skip_ws r1) as [|c r2] eqn:E4; [done|].
  apply skip_ws_cons_length in E4.
  repeat case_match; simplify_eq; try lia.
  match goal with Hrec : parse_members _ _ _ = Ok _ _ |- _ =>
    apply IH in Hrec; lia end.
Qed.

Lemma parse_elements_fuel (fuel : nat) (s : jsstring) :
  (∀ s', (length s' ≤ length s)%nat → parse_inner s' ≠ OutOfFuel) →
  (length s < fuel)%nat →
  parse_elements parse_inner fuel s ≠ OutOfFuel.
Proof.
  revert s. induction fuel as [|fuel IH]; intros s Hinner Hfuel; [lia|].
  cbn [parse_elements].
  pose proof (Hinner s ltac:(lia)) as Hs.
  destruct (parse_inner s) as [v r1| |] eqn:E1; [|done..].
  apply parse_inner_consumes in E1.
  destruct (skip_ws r1) as [|c r2] eqn:E2; [done|].
  apply skip_ws_cons_length in E2.
  destruct (c =? 44); [|by case_match].
  assert (Hrec : parse_elements parse_inner fuel r2 ≠ OutOfFuel).
  { apply IH; [|lia]. intros s' Hs'. apply Hinner. lia. }
  by destruct (parse_elements parse_inner fuel r2).
Qed.

Lemma parse_members_fuel (fuel : nat) (s : jsstring) :
  (∀ s', (length s' ≤ length s)%nat → parse_inner s' ≠ OutOfFuel) →
  (length s < fuel)%nat →
  parse_members parse_inner fuel s ≠ OutOfFuel.
Proof.
  revert s. induction fuel as [|fuel IH]; intros s Hinner Hfuel; [lia|].
  cbn [parse_members].
  destruct (skip_ws s) as [|q s1] eqn:E0; [done|].
  apply skip_ws_cons_length in E0.
  destruct (q =? 34); [|done].
  destruct (parse_chars s1) as [[k s2]|] eqn:E1; [|done].
  apply parse_chars_consumes in E1.
  destruct (skip_ws s2) as [|colon s3] eqn:E2; [done|].
  apply skip_ws_cons_length in E2.
  destruct (colon =? 58); [|done].
  pose proof (Hinner s3 ltac:(lia)) as Hs.
  destruct (parse_inner s3) as [v r1| |] eqn:E3; [|done..].
  apply parse_inner_consumes in E3.
  destruct (skip_ws r1) as [|c r2] eqn:E4; [done|].
  apply skip_ws_cons_length in E4.
  destruct (c =? 44); [|by case_match].
  assert (Hrec : parse_members parse_inner fuel r2 ≠ OutOfFuel).
  { apply IH; [|lia]. intros s' Hs'. apply Hinner. lia. }
  by destruct (parse_members parse_inner fuel r2).
Qed.
End ContainerFuel.

Lemma parse_value_consumes (depth : nat) (s : jsstring) (v : json)
    (r : jsstring) :
  parse_value depth s = Ok v r → (length r < length s)%nat.
Proof.
  revert s v r. induction depth as [|depth IH]; intros s v r H; [done|].
  cbn [parse_value] in H.
  destruct (skip_ws s) as [|c s1] eqn:E0; [done|].
  apply skip_ws_cons_length in E0.
  destruct (c =? 123).
  { destruct (skip_ws s1) as [|d s2] eqn:E1; [done|].
    apply skip_ws_cons_length in E1.
    destruct (d =? 125); [simplify_eq; lia|].
    destruct (parse_members (parse_value depth) (length s) s1) eqn:E2;
      simplify_eq.
    apply (parse_members_consumes _ IH) in E2. lia. }
  destruct (c =? 91).
  { destruct (skip_ws s1) as [|d s2] eqn:E1; [done|].
    apply skip_ws_cons_length in E1.
    destruct (d =? 93); [simplify_eq; lia|].
    destruct (parse_elements (parse_value depth) (length s) s1) eqn:E2;
      simplify_eq.
    apply (parse_elements_consumes _ IH) in E2. lia. }
  destruct (c =? 34).
  { destruct (parse_chars s1) as [[str r']|] eqn:E1; simplify_eq.
    apply parse_chars_consumes in E1. lia. }
  destruct (startsWith (c :: s1) lit_null);
    [simplify_eq; rewrite length_drop; cbn [length]; lia|].
  destruct (startsWith (c :: s1) lit_true);
    [simplify_eq; rewrite length_drop; cbn [length]; lia|].
  destruct (startsWith (c :: s1) lit_false);
    [simplify_eq; rewrite length_drop; cbn [length]; lia|].
  destruct (parse_number (c :: s1)) as [[n r']|] eqn:E1; simplify_eq.
  apply parse_number_consumes in E1. cbn [length] in E1. lia.
Qed.

Lemma parse_value_fuel (depth : nat) (s : jsstring) :
  (length s < depth)%nat → parse_value depth s ≠ OutOfFuel.
Proof.
  revert s. induction depth as [|depth IH]; intros s Hdepth; [lia|].
  cbn [parse_value].
  destruct (skip_ws s) as [|c s1] eqn:E0; [done|].
  apply skip_ws_cons_length in E0.
  destruct (c =? 123).
  { destruct (skip_ws s1) as [|d s2] eqn:E1; [done|].
    destruct (d =? 125); [done|].
    pose proof (parse_members_fuel _ (parse_value_consumes depth)
                  (length s) s1) as H.
    destruct (parse_members (parse_value depth) (length s) s1); [done..|].
    exfalso. apply H; [|lia|done]. intros s' Hs'. apply IH. lia. }
  destruct (c =? 91).
  { destruct (skip_ws s1) as [|d s2] eqn:E1; [done|].
    destruct (d =? 93); [done|].
    pose proof (parse_elements_fuel _ (parse_value_consumes depth)
                  (length s) s1) as H.
    destruct (parse_elements (parse_value depth) (length s) s1); [done..|].
    exfalso. apply H; [|lia|done]. intros s' Hs'. apply IH. lia. }
  repeat case_match; done.
Qed.

(** [JSON_parse] is total on its own fuel. *)
Lemma JSON_parse_fuel (text : jsstring) :
  parse_value (S (length text)) text ≠ OutOfFuel.
Proof. apply parse_value_fuel. lia. Qed.

(** What [JSON_parse] rejects is a syntax error of the value or text
    after the value. *)
Lemma JSON_parse_None (text : jsstring) :
  JSON_parse text = None →
  parse_value (S (length text)) text = SyntaxError
  ∨ ∃ v rest, parse_value (S (length text)) text = Ok v rest ∧ skip_ws rest ≠ [].
Proof.
  unfold JSON_parse. pose proof (JSON_parse_fuel text) as Hfuel.
  destruct (parse_value (S (length text)) text) as [v rest| |]; [|by left|done].
  case_bool_decide; [done|]. right. eauto.
Qed.

(** ** The view filter on Basic Latin names *)

(** With the Basic Latin lower-casing, the query occurs in the name
    ignoring case exactly when some stretch of the name agrees with the
    query letter by letter up to case. *)
Lemma ascii_contains_ignoring_case (name query : jsstring) :
  contains_ignoring_case ascii_toLowerCase name query
  ↔ ∃ before mid after,
      name = before ++ mid ++ after ∧ same_ignoring_ascii_case mid query.
Proof.
  unfold contains_ignoring_case, ascii_toLowerCase, same_ignoring_ascii_case.
  split.
  - intros (b & a & H).
    apply fmap_app_inv in H as (before & rest & -> & H & ->).
    symmetry in H. apply fmap_app_inv in H as (mid & after & Hmid & -> & ->).
    exists before, mid, after. split; [done|].
    apply (Forall2_fmap ascii_lower ascii_lower eq).
    by apply list_eq_Forall2.
  - intros (before & mid & after & -> & H).
    exists (map ascii_lower before), (map ascii_lower after).
    rewrite !map_app. do 2 f_equal.
    apply list_eq_Forall2. by apply (Forall2_fmap ascii_lower ascii_lower eq).
Qed.

(** ** The scenario of the spec

    Upload [photo.png] of 2048 bytes into an empty gallery; search
    [PHO]; delete the record by its id; the saved collection is then the
    empty array. *)
Example scenario :
  let st := mkState [] false None (Some []) [] in
  let st1 :=
    apply_effects st
      (run_upload (Some [photo_png]) (all_loaded (take 1 sample_loads))).2 in
  map (λ img, (ImageData.name img, ImageData.size img)) (images st1)
  = [(js "photo", 2048)]
  ∧ length (filteredImages ascii_toLowerCase (images st1) (js "PHO")) = 1%nat
  ∧ ∀ img, images st1 = [img] →
      let st2 := apply_effects st1 (deleteImage (ImageData.id img)) in
      images st2 = []
      ∧ save_images (images st2) ∅ !! gallery_images = Some (js "[]").
Proof.
  cbv zeta. repeat apply conj; [reflexivity | reflexivity |].
  intros img [= <-]. split; reflexivity.
Qed.

(** ** Two batches at once

    The properties above are about a batch run on its own.  The handler
    of a second batch may start while the first one waits for a read;
    the first one to settle then lowers the one flag they share, while
    the other still waits. *)
Remark overlapping_batches :
  let '(first, es1) := handleFileUpload (Some [photo_png]) in
  let st1 := apply_effects st0 es1 in
  let '(second, es2) := handleFileUpload (Some [cat_jpeg]) in
  let st2 := apply_effects st1 es2 in
  let '(first', es3) := resume first (Loaded []) env0 in
  let st3 := apply_effects st2 es3 in
  first' = Settled ∧ second ≠ Settled ∧ uploading st2 = true
  ∧ uploading st3 = false.
Proof. cbn. repeat split; done. Qed.

(** How the regular expression treats the names at its edges: only the
    last extension goes; a name that is nothing but an extension becomes
    empty; a trailing dot, or a slash after the last dot, is no
    extension. *)
Example replace_ext_edges :
  replace_ext (js "archive.tar.gz") = js "archive.tar"
  ∧ replace_ext (js ".png") = []
  ∧ replace_ext (js "photo.") = js "photo."
  ∧ replace_ext (js "a.b/c") = js "a.b/c"
  ∧ replace_ext (js "README") = js "README".
Proof. repeat split; reflexivity. Qed.

(** * Further properties of the component *)

(** ** The name of a record, completely *)

Lemma ext_match_here_spec (s : jsstring) :
  ext_match_here s = true
  ↔ ∃ ext, s = 46 :: ext ∧ ext ≠ [] ∧ Forall (λ c, c ≠ 46 ∧ c ≠ 47) ext.
Proof.
  destruct s as [|c rest]; cbn [ext_match_here].
  - split; [done | by intros (ext & ? & _)].
  - rewrite !andb_true_iff, N.eqb_eq, negb_true_iff, bool_decide_eq_false.
    assert (Hclass : forallb not_slash_dot rest = true
                     ↔ Forall (λ c, c ≠ 46 ∧ c ≠ 47) rest).
    { rewrite forallb_forall, Forall_forall. unfold not_slash_dot.
      split; intros H x Hx.
      - apply list_elem_of_In, H in Hx.
        rewrite andb_true_iff, !negb_true_iff, !N.eqb_neq in Hx. tauto.
      - apply list_elem_of_In, H in Hx.
        rewrite andb_true_iff, !negb_true_iff, !N.eqb_neq. tauto. }
    rewrite Hclass. split.
    + intros [[-> Hne] Hext]. by exists rest.
    + intros (ext & [= -> ->] & Hne & Hext). done.
Qed.

(** X1: the name of a record is the file name, or the file name without
    its last dot and what follows it; the latter exactly when what
    follows the last dot is non-empty and has no slash. *)
Theorem replace_ext_cases (s : jsstring) :
  (∃ ext, s = replace_ext s ++ 46 :: ext
          ∧ ext ≠ [] ∧ Forall (λ c, c ≠ 46 ∧ c ≠ 47) ext)
  ∨ (replace_ext s = s
     ∧ ∀ stem ext, s = stem ++ 46 :: ext → ext ≠ [] →
                   ¬ Forall (λ c, c ≠ 46 ∧ c ≠ 47) ext).
Proof.
  induction s as [|c s IH].
  - right. split; [done|]. intros [|??] ext H; discriminate H.
  - cbn [replace_ext]. destruct (ext_match_here (c :: s)) eqn:E.
    + left. apply ext_match_here_spec in E as (ext & -> & Hne & Hext).
      by exists ext.
    + destruct IH as [(ext & Hs & Hne & Hext) | [Hs Hnone]].
      * left. exists ext. split; [|done]. cbn [app]. by rewrite <- Hs.
      * right. split; [by rewrite Hs|].
        intros [|d stem] ext Heq Hne Hext.
        -- assert (ext_match_here (c :: s) = true) as Ht; [|congruence].
           apply ext_match_here_spec. exists ext. by simplify_eq/=.
        -- simplify_eq/=. by eapply Hnone.
Qed.

(** ** What an upload emits, for any reads *)

Lemma upload_loop_effects (fileArray : list File.t) (newImages : list ImageData.t) :
  Forall upload_effect (upload_loop fileArray newImages).2.
Proof.
  destruct (upload_loop_cases fileArray newImages) as [(f & rs & ->) | ->];
    by repeat constructor.
Qed.

Lemma drive_effects (t : upload_task) (reads : list (read_result * Ambient)) :
  Forall upload_effect (drive t reads).2.
Proof.
  revert t. induction reads as [|[r env] reads IH]; intros t.
  - destruct t; constructor.
  - destruct t as [file rest newImages|]; [|constructor].
    rewrite drive_Reading. destruct r as [base64|error]; cbn [resume].
    + pose proof (upload_loop_effects rest
                    (newImages ++ [imageData file base64 env])) as H.
      destruct (upload_loop rest (newImages ++ [imageData file base64 env]))
        as [t' es].
      specialize (IH t'). destruct (drive t' reads) as [t'' es'].
      apply Forall_app. done.
    + rewrite drive_Settled. by repeat constructor.
Qed.

Lemma run_upload_effects (files : option (list File.t))
    (reads : list (read_result * Ambient)) :
  Forall upload_effect (run_upload files reads).2.
Proof.
  destruct files as [[|file files]|];
    [unfold run_upload; cbn; rewrite drive_Settled; constructor | |
     unfold run_upload; cbn; rewrite drive_Settled; constructor].
  rewrite run_upload_started.
  pose proof (upload_loop_effects (file :: files) []) as H.
  destruct (upload_loop (file :: files) []) as [t es].
  pose proof (drive_effects t reads) as H'.
  destruct (drive t reads) as [t' es'].
  constructor; [done|]. by apply Forall_app.
Qed.

Lemma apply_upload_effects (st : AppState) (es : list effect) :
  Forall upload_effect es →
  images st `prefix_of` images (apply_effects st es)
  ∧ showDeleteConfirm (apply_effects st es) = showDeleteConfirm st.
Proof.
  intros H. revert st. induction H as [|e es He _ IH]; intros st; [done|].
  cbn [apply_effects foldl]. destruct (IH (apply_effect st e)) as [IH1 IH2].
  unfold apply_effects in *. rewrite IH2. split.
  - etrans; [|exact IH1]. destruct e as [| [|] | | |]; try done.
    cbn. by apply prefix_app_r.
  - by destruct e as [| [|] | | |].
Qed.

(** X2: whatever the files and however the reads end, an upload only
    ever extends the collection at its end: the records that were there
    stay, in their places; and it leaves the delete dialog alone. *)
Theorem run_upload_append_only (st : AppState) (files : option (list File.t))
    (reads : list (read_result * Ambient)) :
  images st `prefix_of` images (apply_effects st (run_upload files reads).2)
  ∧ showDeleteConfirm (apply_effects st (run_upload files reads).2)
    = showDeleteConfirm st.
Proof. apply apply_upload_effects, run_upload_effects. Qed.

Lemma upload_loop_no_image (fileArray : list File.t) (newImages : list ImageData.t) :
  Forall (λ file, ¬ is_image file) fileArray →
  upload_loop fileArray newImages
  = (Settled, SetImages (Append newImages) :: finally_block).
Proof.
  induction 1 as [|file rest Hfile _ IH]; [done|]. cbn [upload_loop].
  unfold is_image in Hfile.
  by destruct (startsWith (File.type file) image_slash).
Qed.

(** X3: a batch without any image file (a drop is not filtered by the
    input's [accept]) never waits for a read: the call itself settles,
    the collection, the console and the dialog are as before, the flag
    is down, and the file input is emptied all the same. *)
Theorem handleFileUpload_no_image (st : AppState) (file : File.t)
    (files : list File.t) :
  Forall (λ f, ¬ is_image f) (file :: files) →
  handleFileUpload (Some (file :: files))
  = (Settled,
     [SetUploading true; SetImages (Append []); SetUploading false;
      ResetFileInput])
  ∧ apply_effects st (handleFileUpload (Some (file :: files))).2
    = mkState (images st) false (showDeleteConfirm st)
        ((λ _, []) <$> fileInput st) (console st).
Proof.
  intros H. unfold handleFileUpload.
  rewrite (upload_loop_no_image (file :: files) [] H).
  split; [done|]. cbn. by rewrite app_nil_r.
Qed.

Lemma handleFileUpload_no_image_witness :
  Forall (λ f, ¬ is_image f) [notes_pdf]
  ∧ images (apply_effects st0 (handleFileUpload (Some [notes_pdf])).2)
    = images st0.
Proof.
  assert (H : Forall (λ f, ¬ is_image f) [notes_pdf])
    by (repeat constructor; discriminate).
  split; [exact H|].
  by rewrite (proj2 (handleFileUpload_no_image st0 notes_pdf [] H)).
Defined.

Lemma drive_upload_loop_waiting (fileArray : list File.t)
    (newImages : list ImageData.t) (loads : list (jsstring * Ambient)) :
  (length loads < length (filter is_image fileArray))%nat →
  ∃ file rest,
    (let '(t, es) := upload_loop fileArray newImages in
     let '(t', es') := drive t (all_loaded loads) in (t', es ++ es'))
    = (Reading file rest (newImages ++ records_of fileArray loads), [])
    ∧ is_image file.
Proof.
  revert newImages loads.
  induction fileArray as [|file rest IH]; intros newImages loads Hlen.
  - cbn in Hlen. lia.
  - unfold records_of in *. rewrite filter_is_image_cons in *.
    cbn [upload_loop].
    destruct (startsWith (File.type file) image_slash) eqn:Himg; [|by apply IH].
    destruct loads as [|[base64 env] loads].
    + exists file, rest. cbn. by rewrite app_nil_r.
    + cbn [length] in Hlen.
      change (all_loaded ((base64, env) :: loads))
        with ((Loaded base64, env) :: all_loaded loads).
      rewrite drive_Reading. cbn [resume zip_with fst snd].
      destruct (IH (newImages ++ [imageData file base64 env]) loads
                  ltac:(lia)) as (f & rs & Hrun & Hf).
      exists f, rs. split; [|done].
      destruct (upload_loop rest (newImages ++ [imageData file base64 env]))
        as [t es].
      destruct (drive t (all_loaded loads)) as [t' es'].
      injection Hrun as -> ->. by rewrite <- app_assoc.
Qed.

(** X4: while reads of a batch are still due, the earlier ones having
    succeeded, the handler waits at an image file with the records built
    so far held back: all it has emitted is the raising of the flag, and
    the collection shows none of them. *)
Theorem run_upload_waiting (st : AppState) (file : File.t) (files : list File.t)
    (loads : list (jsstring * Ambient)) :
  (length loads < length (filter is_image (file :: files)))%nat →
  (∃ next rest,
     run_upload (Some (file :: files)) (all_loaded loads)
     = (Reading next rest (records_of (file :: files) loads),
        [SetUploading true])
     ∧ is_image next)
  ∧ images (apply_effects st
              (run_upload (Some (file :: files)) (all_loaded loads)).2)
    = images st.
Proof.
  intros Hlen.
  destruct (drive_upload_loop_waiting (file :: files) [] loads Hlen)
    as (next & rest & Hrun & Hnext).
  assert (run_upload (Some (file :: files)) (all_loaded loads)
          = (Reading next rest (records_of (file :: files) loads),
             [SetUploading true])) as H.
  { rewrite run_upload_started.
    destruct (upload_loop (file :: files) []) as [t es].
    destruct (drive t (all_loaded loads)) as [t' es'].
    by injection Hrun as -> ->. }
  split; [by exists next, rest|]. by rewrite H.
Qed.

Lemma run_upload_waiting_witness :
  (length (take 1 sample_loads) < length (filter is_image sample_batch))%nat
  ∧ images (apply_effects st0
              (run_upload (Some sample_batch) (all_loaded (take 1 sample_loads))).2)
    = images st0.
Proof.
  split; [vm_compute; lia|].
  apply (run_upload_waiting st0 photo_png [notes_pdf; cat_jpeg]
           (take 1 sample_loads)).
  vm_compute; lia.
Defined.

(** ** Deletion, further *)

Lemma deleteImage_update_absent (imageId : jsstring) (l : list ImageData.t) :
  imageId ∉ map ImageData.id l → deleteImage_update imageId l = l.
Proof.
  unfold deleteImage_update. induction l as [|x l IH]; intros H; [done|].
  cbn [map] in H. apply not_elem_of_cons in H as [H1 H2].
  rewrite filter_cons_True by done. by rewrite IH.
Qed.

(** X5: deleting a record that was just uploaded, whose id no older
    record carries, gives back the collection as it was before the
    upload. *)
Theorem upload_then_delete (st : AppState) (file : File.t) (base64 : jsstring)
    (env : Ambient) :
  is_image file →
  ImageData.id (imageData file base64 env) ∉ map ImageData.id (images st) →
  images (apply_effects st
            ((run_upload (Some [file]) [(Loaded base64, env)]).2
             ++ deleteImage (ImageData.id (imageData file base64 env))))
  = images st.
Proof.
  intros Himg Hfresh.
  assert (Hlen : length [(base64, env)] = length (filter is_image [file])).
  { by rewrite filter_cons_True. }
  pose proof (run_upload_loaded file [] [(base64, env)] Hlen) as Hrun.
  change (all_loaded [(base64, env)]) with [(Loaded base64, env)] in Hrun.
  rewrite Hrun. unfold records_of. rewrite filter_cons_True by done.
  rewrite filter_nil.
  cbn [zip_with fst snd app apply_effects foldl apply_effect deleteImage
       update_images images].
  unfold deleteImage_update.
  rewrite filter_app, filter_cons_False, filter_nil, app_nil_r by (by intros ?).
  by apply deleteImage_update_absent.
Qed.

Lemma upload_then_delete_witness :
  images (apply_effects st0
            ((run_upload (Some [photo_png])
                [(Loaded (js "data:image/png;base64,iVBORw0KGgo="), env0)]).2
             ++ deleteImage
                  (ImageData.id (imageData photo_png (js "data:image/png;base64,iVBORw0KGgo=") env0))))
  = images st0.
Proof.
  apply (upload_then_delete st0 photo_png (js "data:image/png;base64,iVBORw0KGgo=") env0).
  - reflexivity.
  - apply (bool_decide_unpack _). vm_compute. exact I.
Defined.

(** X6: deletions are idempotent and their order does not matter. *)
Theorem deleteImage_update_idemp_comm (a b : jsstring) (l : list ImageData.t) :
  deleteImage_update a (deleteImage_update a l) = deleteImage_update a l
  ∧ deleteImage_update a (deleteImage_update b l)
    = deleteImage_update b (deleteImage_update a l).
Proof.
  unfold deleteImage_update. rewrite !list_filter_filter. split.
  - apply list_filter_iff. tauto.
  - apply list_filter_iff. tauto.
Qed.

(** X7: a deletion keeps the ids of the collection distinct; when they
    are, and the id is in the collection, it removes one record. *)
Theorem deleteImage_update_unique (imageId : jsstring) (l : list ImageData.t) :
  NoDup (map ImageData.id l) →
  NoDup (map ImageData.id (deleteImage_update imageId l))
  ∧ (imageId ∈ map ImageData.id l →
     S (length (deleteImage_update imageId l)) = length l).
Proof.
  unfold deleteImage_update. induction l as [|x l IH]; intros Hnd.
  - split; [done|]. by intros ?%elem_of_nil.
  - cbn [map] in Hnd. apply NoDup_cons in Hnd as [Hx Hnd].
    destruct (IH Hnd) as [IH1 IH2]. rewrite filter_cons.
    destruct (decide (ImageData.id x ≠ imageId)) as [Hne|Heq].
    + split.
      * cbn [map]. apply NoDup_cons. split; [|done].
        intros Hin. apply Hx. apply list_elem_of_fmap in Hin as (y & -> & Hy).
        apply list_elem_of_fmap. exists y. split; [done|].
        by apply list_elem_of_filter in Hy as [_ ?].
      * cbn [map length]. intros [?|Hin]%elem_of_cons; [done|].
        by rewrite IH2.
    + apply dec_stable in Heq. split; [done|]. intros _. cbn [length].
      f_equal. change (length (deleteImage_update imageId l) = length l).
      rewrite deleteImage_update_absent; [done | by rewrite <- Heq].
Qed.

Lemma deleteImage_update_unique_witness :
  NoDup (map ImageData.id [photo; cat; sunset])
  ∧ S (length (deleteImage_update (ImageData.id cat) [photo; cat; sunset]))
    = length [photo; cat; sunset].
Proof.
  assert (H : NoDup (map ImageData.id [photo; cat; sunset]))
    by (apply (bool_decide_unpack _); vm_compute; exact I).
  split; [exact H|].
  apply (deleteImage_update_unique (ImageData.id cat) [photo; cat; sunset] H).
  apply (bool_decide_unpack _). vm_compute. exact I.
Defined.

(** ** The view, further *)

Lemma includes_trans (a b c : jsstring) :
  includes a b = true → includes b c = true → includes a c = true.
Proof.
  rewrite !includes_spec. intros (p1 & q1 & ->) (p2 & q2 & ->).
  exists (p1 ++ p2), (q2 ++ q1). by rewrite <- !app_assoc.
Qed.

Section ViewFurther.
Variable toLowerCase : jsstring → jsstring.

Lemma filteredImages_no_query (images : list ImageData.t) :
  toLowerCase [] = [] → filteredImages toLowerCase images [] = images.
Proof.
  intros Hempty. unfold filteredImages.
  induction images as [|image rest IH]; [done|].
  rewrite filter_cons_True; [by rewrite IH|].
  unfold matches. rewrite Hempty. apply includes_empty.
Qed.

(** X8: the view of a collection after a deletion is the view before it
    without the deleted record: searching and deleting commute. *)
Theorem filteredImages_deleteImage_update (images : list ImageData.t)
    (searchTerm imageId : jsstring) :
  filteredImages toLowerCase (deleteImage_update imageId images) searchTerm
  = deleteImage_update imageId (filteredImages toLowerCase images searchTerm).
Proof.
  unfold filteredImages, deleteImage_update. rewrite !list_filter_filter.
  apply list_filter_iff. tauto.
Qed.

(** X9: after a batch whose reads all succeeded, the view is the view
    before it followed by the new records that match the search term:
    what was shown stays where it was. *)
Theorem filteredImages_after_upload (st : AppState) (file : File.t)
    (files : list File.t) (loads : list (jsstring * Ambient))
    (searchTerm : jsstring) :
  length loads = length (filter is_image (file :: files)) →
  filteredImages toLowerCase
    (images (apply_effects st
               (run_upload (Some (file :: files)) (all_loaded loads)).2))
    searchTerm
  = filteredImages toLowerCase (images st) searchTerm
    ++ filteredImages toLowerCase (records_of (file :: files) loads) searchTerm.
Proof.
  intros Hlen. rewrite run_upload_loaded by done.
  unfold filteredImages. cbn. apply filter_app.
Qed.

(** X10: a search term whose lower-casing contains the lower-casing of
    another one finds no more than that one: its view is the view
    of the other one searched again, hence a subsequence of it. *)
Theorem filteredImages_narrow (images : list ImageData.t)
    (searchTerm longer : jsstring) :
  includes (toLowerCase longer) (toLowerCase searchTerm) = true →
  filteredImages toLowerCase images longer
  = filteredImages toLowerCase (filteredImages toLowerCase images searchTerm) longer
  ∧ filteredImages toLowerCase images longer
    `sublist_of` filteredImages toLowerCase images searchTerm.
Proof.
  intros Hinc.
  assert (H : filteredImages toLowerCase images longer
              = filteredImages toLowerCase
                  (filteredImages toLowerCase images searchTerm) longer).
  { unfold filteredImages. rewrite list_filter_filter.
    apply list_filter_iff. intros image. split; [|tauto].
    intros Hm. split; [done|]. unfold matches in *.
    by eapply includes_trans. }
  split; [done|]. rewrite H. apply sublist_filter.
Qed.

(** X11: the empty state reads [No images yet] exactly when the
    collection is empty and nothing is searched for; a grid is never
    empty, and the counter is shown exactly with the grid. *)
Theorem gallery_empty_state (images : list ImageData.t) (searchTerm : jsstring) :
  toLowerCase [] = [] →
  (gallery toLowerCase images searchTerm = EmptyState no_images_yet upload_your_first
   ↔ images = [] ∧ searchTerm = [])
  ∧ (∀ cards, gallery toLowerCase images searchTerm = Grid cards →
              cards ≠ []
              ∧ cards = filteredImages toLowerCase images searchTerm
              ∧ gallery_count toLowerCase images searchTerm = Some (length cards))
  ∧ (∀ title message,
       gallery toLowerCase images searchTerm = EmptyState title message →
       filteredImages toLowerCase images searchTerm = []
       ∧ gallery_count toLowerCase images searchTerm = None).
Proof.
  intros Hempty. unfold gallery, gallery_count.
  destruct (filteredImages toLowerCase images searchTerm) as [|card cards] eqn:E.
  - split; [|split].
    + destruct searchTerm as [|c s].
      * rewrite filteredImages_no_query in E by done. by subst.
      * split; [done | by intros [_ ?]].
    + by destruct searchTerm.
    + done.
  - split; [|split].
    + split; [done|]. intros [-> _]. discriminate E.
    + intros cards' [= <-]. done.
    + done.
Qed.
End ViewFurther.

Lemma filteredImages_after_upload_witness :
  length sample_loads = length (filter is_image sample_batch)
  ∧ filteredImages ascii_toLowerCase
      (images (apply_effects st0
                 (run_upload (Some sample_batch) (all_loaded sample_loads)).2))
      (js "PHO")
    = filteredImages ascii_toLowerCase (images st0) (js "PHO")
      ++ filteredImages ascii_toLowerCase (records_of sample_batch sample_loads)
           (js "PHO").
Proof.
  split; [reflexivity|].
  apply (filteredImages_after_upload ascii_toLowerCase st0 photo_png
           [notes_pdf; cat_jpeg] sample_loads (js "PHO")).
  reflexivity.
Defined.

Lemma filteredImages_narrow_witness :
  includes (ascii_toLowerCase (js "Cat")) (ascii_toLowerCase (js "ca")) = true
  ∧ filteredImages ascii_toLowerCase [photo; cat; sunset] (js "Cat")
    `sublist_of` filteredImages ascii_toLowerCase [photo; cat; sunset] (js "ca").
Proof.
  split; [reflexivity|].
  apply (filteredImages_narrow ascii_toLowerCase [photo; cat; sunset]
           (js "ca") (js "Cat")).
  reflexivity.
Defined.

Lemma gallery_empty_state_witness :
  ascii_toLowerCase [] = []
  ∧ (gallery ascii_toLowerCase [] [] = EmptyState no_images_yet upload_your_first
     ↔ @nil ImageData.t = [] ∧ @nil N = []).
Proof.
  split; [reflexivity|].
  apply (gallery_empty_state ascii_toLowerCase [] [] eq_refl).
Defined.

(** ** The theme over a session *)

(** X12: after a page load and any number of clicks on the theme button,
    the class of the document agrees with [isDarkMode], and loading the
    page again from the store gives the very same theme. *)
Theorem toggles_persist (n : nat) (storage : gmap jsstring jsstring) :
  (toggles n storage).1.2 = (toggles n storage).1.1
  ∧ mount_theme false (toggles n storage).2 = toggles n storage.
Proof.
  unfold toggles. induction n as [|n [IH1 IH2]].
  - change (Nat.iter 0 toggle (mount_theme false storage))
      with (mount_theme false storage).
    unfold mount_theme, load_theme. split; [|done].
    destruct (getItem theme storage); [case_bool_decide|]; done.
  - rewrite Nat.iter_succ.
    destruct (Nat.iter n toggle (mount_theme false storage))
      as [[isDarkMode docDark] stored].
    cbn in IH1. subst docDark.
    unfold toggle, toggleTheme, mount_theme, load_theme, getItem, setItem.
    cbn [fst snd]. rewrite lookup_insert_eq.
    by destruct isDarkMode.
Qed.

(** X13: the two slots of the store do not disturb each other: saving
    the collection leaves the stored theme as it is, and a click on the
    theme button leaves the stored collection as it is. *)
Theorem slots_independent (imgs : list ImageData.t) (s : theme_state) :
  load_theme (save_images imgs s.2) = load_theme s.2
  ∧ load_images (toggle s).2 = load_images s.2.
Proof.
  unfold load_theme, load_images, save_images, toggle, toggleTheme,
    getItem, setItem.
  cbn [fst snd].
  assert (Hkeys : gallery_images ≠ theme) by (by vm_compute).
  by rewrite !lookup_insert_ne.
Qed.

(** ** The stored text *)

(** X14: two different collections are never stored as the same text. *)
Theorem JSON_stringify_inj (imgs imgs' : list ImageData.t) :
  imgs ≠ imgs' → JSON_stringify imgs ≠ JSON_stringify imgs'.
Proof.
  intros Hne Heq. apply Hne, of_images_inj.
  pose proof (JSON_parse_stringify imgs) as H.
  rewrite Heq, JSON_parse_stringify in H. congruence.
Qed.

Lemma JSON_stringify_inj_witness :
  [photo; cat] ≠ [cat; photo]
  ∧ JSON_stringify [photo; cat] ≠ JSON_stringify [cat; photo].
Proof.
  assert (H : [photo; cat] ≠ [cat; photo]) by discriminate.
  split; [exact H|].
  exact (JSON_stringify_inj [photo; cat] [cat; photo] H).
Defined.




Lemma digits_of_uint_digits (u : Decimal.uint) :
  Forall (λ c, 48 ≤ c ≤ 57) (digits_of_uint u).
Proof. induction u; cbn [digits_of_uint]; constructor; (lia || done). Qed.




(** ** The delete dialog *)

(** X16: asking to delete a record opens the dialog for its id; Cancel
    closes it and leaves the collection as it is; Delete removes the
    records with that id and closes it.  Nothing of this ever touches
    the uploading flag. *)
Theorem delete_dialog (st : AppState) (imageId : jsstring) :
  imageId ≠ [] →
  dialog_shown (apply_effects st (requestDelete imageId)) = Some imageId
  ∧ apply_effects st (requestDelete imageId ++ cancelDelete)
    = mkState (images st) (uploading st) None (fileInput st) (console st)
  ∧ apply_effects st
      (requestDelete imageId
       ++ confirmDelete (apply_effects st (requestDelete imageId)))
    = mkState (deleteImage_update imageId (images st)) (uploading st) None
        (fileInput st) (console st).
Proof.
  intros Hne. destruct imageId as [|c s]; [done|].
  repeat split.
Qed.

Lemma delete_dialog_witness :
  ImageData.id sunset ≠ []
  ∧ images (apply_effects st0
              (requestDelete (ImageData.id sunset)
               ++ confirmDelete
                    (apply_effects st0 (requestDelete (ImageData.id sunset)))))
    = [].
Proof.
  assert (H : ImageData.id sunset ≠ []) by discriminate.
  split; [exact H|].
  by rewrite (proj2 (proj2 (delete_dialog st0 (ImageData.id sunset) H))).
Defined.

(** X17: the id of a record the component builds is never the empty
    string: it starts with a decimal digit, or with a minus sign when
    the clock is set before 1970.  It is therefore a truthy string, and
    the dialog opens for every such record. *)
Theorem imageData_id_opens_dialog (st : AppState) (file : File.t)
    (base64 : jsstring) (env : Ambient) :
  (∃ c tail, ImageData.id (imageData file base64 env) = c :: tail
             ∧ (c = 45 ∨ 48 ≤ c ≤ 57)
             ∧ ((0 ≤ Date_now env)%Z → 48 ≤ c ≤ 57)
             ∧ ((Date_now env < 0)%Z → c = 45))
  ∧ dialog_shown
      (apply_effects st (requestDelete (ImageData.id (imageData file base64 env))))
    = Some (ImageData.id (imageData file base64 env)).
Proof.
  cbn [imageData ImageData.id]. unfold Integer_toString.
  destruct (Z.ltb_spec (Date_now env) 0) as [Hneg|Hpos].
  - split; [|done]. eexists _, _. split; [done|].
    split; [by left|]. split; [lia | done].
  - destruct (Number_toString_head (Z.to_N (Date_now env)))
      as (c & tl & -> & Hc).
    unfold is_digit in Hc. rewrite andb_true_iff, !N.leb_le in Hc.
    split; [|done]. eexists _, _. split; [done|].
    split; [by right|]. split; [done | lia].
Qed.

Lemma imageData_id_opens_dialog_witness :
  (0 ≤ Date_now env0)%Z
  ∧ dialog_shown
      (apply_effects st0 (requestDelete (ImageData.id (imageData photo_png [] env0))))
    = Some (ImageData.id (imageData photo_png [] env0)).
Proof.
  split; [done|].
  apply (imageData_id_opens_dialog st0 photo_png [] env0).
Defined.

(** On a clock set before 1970 the id starts with the minus sign. *)
Example imageData_id_before_1970 :
  ImageData.id
    (imageData photo_png []
       (mkAmbient (-5)%Z (10 :: 46 :: 120 :: 121 :: []) []))
  = 45 :: 53 :: 120 :: 121 :: [].
Proof. reflexivity. Qed.

(** ** Dropping files *)

(** X18: a drop hands every list of files to the upload handler with the
    same outcome as the file input does: the guard of the drop handler
    only repeats the one of the upload handler.  It always lowers
    [dragActive]. *)
Theorem handleDrop_handleFileUpload (files : option (list File.t)) :
  handleDrop files = (false, handleFileUpload files).
Proof. by destruct files as [[|file files]|]. Qed.

(** ** Valid collections stay valid *)

Lemma Forall_filter_keep {A} (P Q : A → Prop) `{∀ x, Decision (Q x)}
    (l : list A) :
  Forall P l → Forall P (filter Q l).
Proof.
  rewrite !Forall_forall. intros HP x Hx.
  apply list_elem_of_filter in Hx as [_ Hx]. by apply HP.
Qed.

Lemma replace_ext_prefix (s : jsstring) : replace_ext s `prefix_of` s.
Proof.
  induction s as [|c s IH]; [done|]. cbn [replace_ext].
  destruct (ext_match_here (c :: s)); [apply prefix_nil|].
  by apply prefix_cons.
Qed.

Lemma wf_string_prefix (s t : jsstring) :
  s `prefix_of` t → wf_string t → wf_string s.
Proof. intros [k ->] H. by apply Forall_app in H as [? _]. Qed.

Lemma wf_string_Number_toString (n : N) : wf_string (Number_toString n).
Proof.
  unfold wf_string, Number_toString.
  eapply Forall_impl; [apply digits_of_uint_digits|]. intros c Hc. cbn in Hc. lia.
Qed.

Lemma wf_string_Integer_toString (z : Z) : wf_string (Integer_toString z).
Proof.
  unfold Integer_toString. destruct (z <? 0)%Z.
  - constructor; [done | apply wf_string_Number_toString].
  - apply wf_string_Number_toString.
Qed.

Lemma valid_imageData (file : File.t) (l : jsstring * Ambient) :
  valid_file file → valid_load l → valid_image (imageData file l.1 l.2).
Proof.
  intros [Hname Hsize] (Hb & Hrandom & Hdate). unfold valid_image.
  cbn [imageData ImageData.id ImageData.name ImageData.src ImageData.size
       ImageData.uploadDate].
  repeat split; try done.
  - apply Forall_app. split; [apply wf_string_Integer_toString|].
    unfold substr. by apply Forall_take, Forall_drop.
  - eapply wf_string_prefix; [apply replace_ext_prefix | done].
Qed.

Lemma valid_records_of (fileArray : list File.t)
    (loads : list (jsstring * Ambient)) :
  Forall valid_file fileArray → Forall valid_load loads →
  valid_collection (records_of fileArray loads).
Proof.
  intros Hfiles Hloads. unfold records_of, valid_collection.
  assert (Haccepted : Forall valid_file (filter is_image fileArray))
    by by apply Forall_filter_keep.
  revert Haccepted. generalize (filter is_image fileArray) as accepted.
  intros accepted Haccepted. revert loads Hloads.
  induction Haccepted as [|file accepted Hfile _ IH]; intros loads Hloads;
    [constructor|].
  destruct Hloads as [|l loads Hl Hloads]; cbn [zip_with]; [constructor|].
  constructor; [by apply valid_imageData | by apply IH].
Qed.

(** X19: a valid collection stays valid: a deletion keeps it valid, and
    so does a batch whose file names and read results are well-formed
    strings and whose sizes are safe integers.  What the component
    saves is therefore always within what it loads back unchanged. *)
Theorem valid_collection_kept (st : AppState) (imageId : jsstring)
    (file : File.t) (files : list File.t) (loads : list (jsstring * Ambient)) :
  valid_collection (images st) →
  Forall valid_file (file :: files) →
  Forall valid_load loads →
  length loads = length (filter is_image (file :: files)) →
  valid_collection (images (apply_effects st (deleteImage imageId)))
  ∧ valid_collection
      (images (apply_effects st
                 (run_upload (Some (file :: files)) (all_loaded loads)).2)).
Proof.
  intros Hst Hfiles Hloads Hlen. split.
  - cbn. by apply Forall_filter_keep.
  - rewrite run_upload_loaded by done.
    cbn [snd apply_effects foldl apply_effect update_images images].
    apply Forall_app. split; [done|]. by apply valid_records_of.
Qed.

Lemma valid_collection_kept_witness :
  valid_collection (images st0)
  ∧ valid_collection
      (images (apply_effects st0
                 (run_upload (Some sample_batch) (all_loaded sample_loads)).2)).
Proof.
  assert (H1 : valid_collection (images st0)).
  { unfold valid_collection, valid_image, wf_string.
    apply (bool_decide_unpack _). vm_compute. exact I. }
  split; [exact H1|].
  apply (valid_collection_kept st0 [] photo_png [notes_pdf; cat_jpeg]
           sample_loads H1).
  - unfold valid_file, wf_string. apply (bool_decide_unpack _).
    vm_compute. exact I.
  - unfold valid_load, wf_string. apply (bool_decide_unpack _).
    vm_compute. exact I.
  - reflexivity.
Defined.

(** ** Batches, further *)

(** X20: the only trace a failed batch leaves is one entry on the
    console, which carries the error of the read; a batch whose reads
    all succeed logs nothing. *)
Theorem run_upload_console (st : AppState) (file : File.t) (files : list File.t)
    (loads : list (jsstring * Ambient)) (error : jsstring) (env : Ambient)
    (later : list (read_result * Ambient)) :
  ((length loads < length (filter is_image (file :: files)))%nat →
   apply_effects st
     (run_upload (Some (file :: files))
        (all_loaded loads ++ (Failed error, env) :: later)).2
   = mkState (images st) false (showDeleteConfirm st)
       ((λ _, []) <$> fileInput st)
       (console st ++ [(upload_error_label, error)]))
  ∧ (length loads = length (filter is_image (file :: files)) →
     console (apply_effects st
                (run_upload (Some (file :: files)) (all_loaded loads)).2)
     = console st).
Proof.
  split; intros Hlen.
  - by rewrite run_upload_failed.
  - by rewrite run_upload_loaded.
Qed.

Lemma run_upload_console_witness :
  (length (take 1 sample_loads) < length (filter is_image sample_batch))%nat
  ∧ console (apply_effects st0
               (run_upload (Some sample_batch)
                  (all_loaded (take 1 sample_loads)
                   ++ [(Failed read_error, env1)])).2)
    = [(upload_error_label, read_error)].
Proof.
  assert (H : (length (take 1 sample_loads)
               < length (filter is_image sample_batch))%nat)
    by (vm_compute; lia).
  split; [exact H|].
  exact (f_equal console
           (proj1 (run_upload_console st0 photo_png [notes_pdf; cat_jpeg]
                     (take 1 sample_loads) read_error env1 []) H)).
Defined.

(** X21: two batches one after the other, all reads succeeding, leave
    the collection followed by the records of the first batch and then
    those of the second: the collection is in upload order across
    batches. *)
Theorem run_upload_twice (st : AppState) (file1 : File.t) (files1 : list File.t)
    (loads1 : list (jsstring * Ambient)) (file2 : File.t) (files2 : list File.t)
    (loads2 : list (jsstring * Ambient)) :
  length loads1 = length (filter is_image (file1 :: files1)) →
  length loads2 = length (filter is_image (file2 :: files2)) →
  images (apply_effects st
            ((run_upload (Some (file1 :: files1)) (all_loaded loads1)).2
             ++ (run_upload (Some (file2 :: files2)) (all_loaded loads2)).2))
  = images st ++ records_of (file1 :: files1) loads1
    ++ records_of (file2 :: files2) loads2.
Proof.
  intros H1 H2. rewrite !run_upload_loaded by done.
  cbn [snd app apply_effects foldl apply_effect update_images images].
  by rewrite <- app_assoc.
Qed.

Lemma run_upload_twice_witness :
  images (apply_effects st0
            ((run_upload (Some sample_batch) (all_loaded sample_loads)).2
             ++ (run_upload (Some [cat_jpeg]) (all_loaded (drop 1 sample_loads))).2))
  = images st0 ++ records_of sample_batch sample_loads
    ++ records_of [cat_jpeg] (drop 1 sample_loads).
Proof.
  apply (run_upload_twice st0 photo_png [notes_pdf; cat_jpeg] sample_loads
           cat_jpeg [] (drop 1 sample_loads)); reflexivity.
Defined.

(** ** The uploading flag with batches in flight *)

(** C7, as the claim states it, fails: a second batch is dropped while
    the first waits for its read; when the first settles, its [finally]
    lowers the flag although the read of the second is outstanding. *)
Lemma handleFileUpload_flag_counterexample :
  ¬ Forall flag_tracks_second
      (two_batches st0 (Some [photo_png]) (Some [cat_jpeg])
         [(FirstBatch, Loaded [], env0)]).
Proof.
  intros H. apply Forall_cons in H as [_ H]. apply Forall_cons in H as [H _].
  unfold flag_tracks_second in H. cbn in H.
  destruct H as [_ H]. by specialize (H ltac:(done)).
Qed.

(** C7, amended.  From any state, with or without another batch in
    flight: a batch that waits for a read has raised the flag when it
    started; the step that settles a batch, in the call itself or after
    a read, by success or by failure, leaves the flag down and the value
    of a mounted file input empty; a step that waits on changes
    nothing.  And for a batch run on its own the flag is up exactly
    while the handler waits for a read, and the batch settles once its
    reads have. *)
Theorem handleFileUpload_settles (s st : AppState) (file : File.t)
    (files : list File.t) (reads : list (read_result * Ambient))
    (t : upload_task) (r : read_result) (env : Ambient) :
  ((handleFileUpload (Some (file :: files))).1 ≠ Settled →
   uploading (apply_effects s (handleFileUpload (Some (file :: files))).2) = true)
  ∧ ((handleFileUpload (Some (file :: files))).1 = Settled →
     uploading (apply_effects s (handleFileUpload (Some (file :: files))).2)
     = false
     ∧ fileInput (apply_effects s (handleFileUpload (Some (file :: files))).2)
       = (λ _, []) <$> fileInput s)
  ∧ (t ≠ Settled → (resume t r env).1 = Settled →
     uploading (apply_effects s (resume t r env).2) = false
     ∧ fileInput (apply_effects s (resume t r env).2)
       = (λ _, []) <$> fileInput s)
  ∧ ((resume t r env).1 ≠ Settled → apply_effects s (resume t r env).2 = s)
  ∧ Forall (λ c, uploading c.2 = true ↔ c.1 ≠ Settled)
      (upload_states st (Some (file :: files)) reads)
  ∧ (∀ s', last (upload_states st (Some (file :: files)) reads)
           = Some (Settled, s') →
           uploading s' = false
           ∧ fileInput s' = (λ _, []) <$> fileInput st
           ∧ s' = apply_effects st (run_upload (Some (file :: files)) reads).2)
  ∧ ((length (filter is_image (file :: files)) ≤ length reads)%nat →
     ∃ s', last (upload_states st (Some (file :: files)) reads)
           = Some (Settled, s')).
Proof.
  split; [|split; [|split; [|split]]].
  - unfold handleFileUpload.
    destruct (upload_loop_cases (file :: files) []) as [(f & rs & ->) | ->];
      [done | by intros []].
  - unfold handleFileUpload.
    destruct (upload_loop_cases (file :: files) []) as [(f & rs & ->) | ->];
      [done|].
    intros _. cbn. by destruct (fileInput s).
  - intros Ht Hsettled.
    destruct (resume_cases t r env)
      as [(f & rs & acc & E) | [(e & E) | [? _]]]; [| |done].
    + by rewrite E in Hsettled.
    + rewrite E. destruct e; cbn; by destruct (fileInput s).
  - intros Hwaits.
    destruct (resume_cases t r env)
      as [(f & rs & acc & E) | [(e & E) | [_ E]]]; rewrite E in *; done.
  - apply handleFileUpload_finally.
Qed.

Lemma handleFileUpload_settles_witness :
  Reading photo_png [] [] ≠ Settled
  ∧ (resume (Reading photo_png [] []) (Failed read_error) env0).1 = Settled
  ∧ uploading
      (apply_effects (apply_effect st0 (SetUploading true))
         (resume (Reading photo_png [] []) (Failed read_error) env0).2)
    = false
  ∧ (length (filter is_image sample_batch) ≤ length (all_loaded sample_loads))%nat
  ∧ ∃ s', last (upload_states st0 (Some sample_batch) (all_loaded sample_loads))
          = Some (Settled, s').
Proof.
  assert (H1 : Reading photo_png [] [] ≠ Settled) by discriminate.
  assert (H2 : (resume (Reading photo_png [] []) (Failed read_error) env0).1
               = Settled) by reflexivity.
  assert (H3 : (length (filter is_image sample_batch)
                ≤ length (all_loaded sample_loads))%nat) by (vm_compute; lia).
  pose proof (handleFileUpload_settles (apply_effect st0 (SetUploading true))
                st0 photo_png [notes_pdf; cat_jpeg] (all_loaded sample_loads)
                (Reading photo_png [] []) (Failed read_error) env0)
    as (_ & _ & Hsettle & _ & _ & _ & Hlast).
  split; [exact H1|]. split; [exact H2|].
  split; [exact (proj1 (Hsettle H1 H2))|].
  split; [exact H3 | exact (Hlast H3)].
Defined.
